(** * SyMPC: the secret-sharing orchestrator and the trusted-dealer provider

    A shallow embedding of
    - [sympc/tensor/mpc_tensor.py]  (class [MPCTensor]) and
    - [sympc/store/crypto_primitive_provider.py]  (class [CryptoPrimitiveProvider])
    together with the properties the specification states about them.

    Python exceptions are values of [exn]; a call that may raise returns a
    [result].  Code that mutates class attributes or remote parties threads
    an explicit state. *)

From Stdlib Require Import ZArith QArith Qround Lia.
From stdpp Require Import base option list strings gmap fin_maps functions.

Local Open Scope Z_scope.

(** ** Exceptions and results *)

(** The [ValueError]s raised by the two classes, by the condition that
    raises them (the messages are f-strings over the offending values). *)
Inductive value_error :=
| SecretFormat                       (* "Secret should be a ShareTensor, torchTensor, float or int." *)
| NotRegistered (op_str : string)    (* f"{op_str} not registered" *)
| PrimitivesNotList                  (* "Primitives should be a List" *)
| CountMismatch (np ns : nat)        (* f"Primitives Len {np} != Sessions Len {ns}" *)
| NeedSameSession (u v : Z)          (* f"Need same session {u} and {v}" *)
| SetupNotCalled                     (* "setup_mpc was not called on the session" *)
| ShapesNone                         (* "Shapes should not be None; ..." *)
| OpNotSupported (op_str : string).  (* f"{op_str} not supported" *)

Inductive exn :=
| ValueError (why : value_error)
| RuntimeError (msg : string)
| NotImplementedError (msg : string)
| IndexError
| TypeError
| AttributeError (name : string)
| UnboundLocalError (name : string)
| External (code : nat).             (* raised inside a collaborator *)

Inductive result (A : Type) :=
| OK (a : A)
| Raise (e : exn).
Arguments OK {A} a.
Arguments Raise {A} e.

#[global] Instance result_ret : MRet result := fun A a => OK a.
#[global] Instance result_bind : MBind result := fun A B f m =>
  match m with
  | OK a => f a
  | Raise e => Raise e
  end.

(** [l[i]] for a non-negative index. *)
Definition index {A} (l : list A) (i : nat) : result A :=
  match l !! i with
  | Some a => OK a
  | None => Raise IndexError
  end.

(** A [for] loop that collects one value per iteration and stops at the
    first exception. *)
Fixpoint for_each {A B} (f : A → result B) (l : list A) : result (list B) :=
  match l with
  | [] => OK []
  | a :: l' => b ← f a; bs ← for_each f l'; OK (b :: bs)
  end.

Lemma for_each_seq {B} (f : nat → result B) (out : list B) (a : nat) :
  (∀ i x, out !! i = Some x → f (a + i)%nat = OK x) →
  for_each f (seq a (length out)) = OK out.
Proof.
  revert a. induction out as [|x out IH]; intros a Hf; [done|].
  cbn [length seq for_each].
  replace (f a) with (f (a + 0)%nat) by (f_equal; lia).
  rewrite (Hf 0%nat x eq_refl). cbn.
  rewrite (IH (S a)); [done|].
  intros i y Hy. replace (S a + i)%nat with (a + S i)%nat by lia.
  by apply Hf.
Qed.

(** ** The sharing scheme: [MPCTensor.generate_shares] *)

Module Sharing.

Section Ring.

(** Bit width of [tensor_type], the integer dtype of the session's ring.
    (With [tensor_type] left at [None] the random tensors are floating
    point; the arithmetic below is that of an integer dtype.) *)
Variable ring_size : Z.

Definition modulus : Z := 2 ^ ring_size.

(** A value stored in a tensor of that dtype: the representative of its
    residue in the signed range, upper half negative. *)
Definition wrap (z : Z) : Z :=
  let r := z mod modulus in
  if r <? 2 ^ (ring_size - 1) then r else r - modulus.

(** Tensors are kept flat: every operation below is elementwise, and the
    shape of a tensor is the number of its elements. *)
Definition tadd (a b : list Z) : list Z := zip_with (λ x y, wrap (x + y)) a b.
Definition tsub (a b : list Z) : list Z := zip_with (λ x y, wrap (x - y)) a b.

Record ShareKwargs := {
  encoder_base : Z;
  encoder_precision : Z;
  kw_session : option nat
}.

(** The fixed-point encoder of [sympc.encoder], not part of these sources:
    it maps a real number to an integer, which the tensor then stores. *)
Variable encode : ShareKwargs → Q → Z.

Record ShareTensor := {
  tensor : list Z;
  session : option nat
}.

(** Modelled from the spec: [ShareTensor(data, **kwargs)] of
    [sympc.tensor], absent from these sources.  The payload is the
    encoding of the data cast into the ring. *)
Definition ShareTensor_init (data : list Q) (kwargs : ShareKwargs) : ShareTensor :=
  {| tensor := (λ q, wrap (encode kwargs q)) <$> data;
     session := kw_session kwargs |}.

(** Modelled from the spec: [ShareTensor.__sub__] of [sympc.tensor],
    absent from these sources.  Elementwise subtraction in the ring; the
    result belongs to the session of the left operand. *)
Definition share_sub (x y : ShareTensor) : ShareTensor :=
  {| tensor := tsub (tensor x) (tensor y); session := session x |}.

(** What a caller can pass as [secret]. *)
Inductive secret :=
| SInt (z : Z)
| SFloat (q : Q)
| STensor (data : list Q)
| SShare (s : ShareTensor)
| SOther.                            (* any other object *)

(** Lines 269-276: wrap plain data, reject what is not a share then. *)
Definition as_share (s : secret) (kwargs : ShareKwargs) : result ShareTensor :=
  match s with
  | SInt z => OK (ShareTensor_init [inject_Z z] kwargs)
  | SFloat q => OK (ShareTensor_init [q] kwargs)
  | STensor data => OK (ShareTensor_init data kwargs)
  | SShare s => OK s
  | SOther => Raise (ValueError SecretFormat)
  end.

(** The random device generator: each draw yields a number and the next
    state. *)
Variable Gen : Type.
Variable draw : Gen → Z * Gen.

(** [torch.empty(size=shape, dtype=tensor_type).random_(generator)]: one
    draw per element, stored in the dtype. *)
Fixpoint random_ (numel : nat) (g : Gen) : list Z * Gen :=
  match numel with
  | O => ([], g)
  | S k => let '(z, g1) := draw g in
           let '(zs, g2) := random_ k g1 in
           (wrap z :: zs, g2)
  end.

(** Lines 281-291: the first loop. *)
Fixpoint random_shares (count numel : nat) (sess : option nat) (g : Gen)
  : list ShareTensor :=
  match count with
  | O => []
  | S k => let '(rand_value, g1) := random_ numel g in
           {| tensor := rand_value; session := sess |}
             :: random_shares k numel sess g1
  end.

(** Lines 295-300: the body of the second loop. *)
Definition share_of_rank (s : ShareTensor) (rs : list ShareTensor)
    (nr_parties : Z) (i : nat) : result ShareTensor :=
  if (i =? 0)%nat then index rs i
  else if Z.of_nat i <? nr_parties - 1 then
    a ← index rs i; b ← index rs (i - 1); OK (share_sub a b)
  else
    b ← index rs (i - 1); OK (share_sub s b).

Definition generate_shares (sec : secret) (nr_parties : Z)
    (kwargs : ShareKwargs) (g : Gen) : result (list ShareTensor) :=
  s ← as_share sec kwargs;
  let rs := random_shares (Z.to_nat (nr_parties - 1))
              (length (tensor s)) (session s) g in
  for_each (share_of_rank s rs nr_parties) (seq 0 (Z.to_nat nr_parties)).

(** [sum(shares)] as [reconstruct] computes it: Python's [sum] starts
    from the integer 0 and adds the tensors from the left. *)
Inductive py_sum_value :=
| SumInt (z : Z)
| SumTensor (t : list Z).

Definition py_sum (ts : list (list Z)) : py_sum_value :=
  match ts with
  | [] => SumInt 0
  | t :: ts' => SumTensor (foldl tadd ((λ x, wrap (0 + x)) <$> t) ts')
  end.

(** The shares as the specification words them: [share_0 = r_1],
    [share_i = r_i − r_{i+1}] for the middle ranks,
    [share_{n-1} = encode(secret) − r_{n-1}]; [rs] is [r_1 .. r_{n-1}]. *)
Definition shares_as_worded (s : ShareTensor) (rs : list ShareTensor)
  : list ShareTensor :=
  match rs with
  | [] => []
  | r1 :: _ =>
      r1 :: zip_with share_sub rs (drop 1 rs)
         ++ [share_sub s (List.last rs r1)]
  end.


(** *** Ring arithmetic *)

Lemma wrap_mod z : wrap z mod modulus = z mod modulus.
Proof.
  unfold wrap. cbv zeta. destruct (_ <? _).
  - apply Zmod_mod.
  - rewrite Zminus_mod, Z_mod_same_full, Z.sub_0_r, !Zmod_mod. done.
Qed.

Lemma wrap_congr a b : a mod modulus = b mod modulus → wrap a = wrap b.
Proof. unfold wrap. by intros ->. Qed.

Lemma wrap_wrap z : wrap (wrap z) = wrap z.
Proof. apply wrap_congr, wrap_mod. Qed.

(** One step of the telescope: [r + (x − r) = x] in the ring. *)
Lemma wrap_add_sub r x : wrap (wrap r + wrap (x - r)) = wrap x.
Proof.
  apply wrap_congr.
  rewrite Zplus_mod, !wrap_mod, <- Zplus_mod. f_equal. lia.
Qed.

Lemma tadd_tsub (r x : list Z) :
  length r = length x →
  tadd (wrap <$> r) (tsub x r) = wrap <$> x.
Proof.
  revert x. induction r as [|a r IH]; intros [|b x] Hlen; try done.
  cbn in *. rewrite wrap_add_sub. f_equal. apply IH. lia.
Qed.

(** *** The random shares *)

Lemma random__length numel g : length (random_ numel g).1 = numel.
Proof.
  revert g. induction numel as [|k IH]; intros g; [done|].
  cbn. destruct (draw g) as [z g1]. specialize (IH g1).
  destruct (random_ k g1) as [zs g2]. cbn in *. by rewrite IH.
Qed.

Lemma random_shares_length count numel sess g :
  length (random_shares count numel sess g) = count.
Proof.
  revert g. induction count as [|k IH]; intros g; [done|].
  cbn. destruct (random_ numel g) as [t g1]. cbn. by rewrite IH.
Qed.

Lemma random_shares_numel count numel sess g :
  Forall (λ r, length (tensor r) = numel) (random_shares count numel sess g).
Proof.
  revert g. induction count as [|k IH]; intros g; [constructor|].
  cbn. pose proof (random__length numel g) as Hl.
  destruct (random_ numel g) as [t g1]. constructor; [done|apply IH].
Qed.

(** *** The second loop in closed form *)

(** The shares of ranks 1.. given the random share [prev] of the rank
    before: every random share minus its predecessor, and last the secret
    minus the last random share. *)
Fixpoint chain (prev : ShareTensor) (rs : list ShareTensor) (s : ShareTensor)
  : list ShareTensor :=
  match rs with
  | [] => [share_sub s prev]
  | r :: rs' => share_sub r prev :: chain r rs' s
  end.

Lemma chain_length prev rs s : length (chain prev rs s) = S (length rs).
Proof. revert prev. induction rs as [|r rs IH]; intros prev; cbn; [done|by rewrite IH]. Qed.

Lemma chain_lookup_middle prev rs s i a b :
  rs !! i = Some a → (prev :: rs) !! i = Some b →
  chain prev rs s !! i = Some (share_sub a b).
Proof.
  revert prev i. induction rs as [|r rs IH]; intros prev i Ha Hb; [done|].
  destruct i as [|i]; cbn in *; [congruence|]. by apply IH.
Qed.

Lemma chain_lookup_last prev rs s b :
  (prev :: rs) !! length rs = Some b →
  chain prev rs s !! length rs = Some (share_sub s b).
Proof.
  revert prev. induction rs as [|r rs IH]; intros prev Hb; cbn in *; [congruence|].
  by apply IH.
Qed.

Lemma second_loop s r1 rs (nr_parties : Z) :
  nr_parties = Z.of_nat (length rs) + 2 →
  for_each (share_of_rank s (r1 :: rs) nr_parties) (seq 0 (Z.to_nat nr_parties))
  = OK (r1 :: chain r1 rs s).
Proof.
  intros Hn.
  replace (Z.to_nat nr_parties) with (length (r1 :: chain r1 rs s))
    by (cbn; rewrite chain_length; lia).
  apply for_each_seq. intros i x Hx. cbn [Nat.add].
  unfold share_of_rank. destruct i as [|i]; [cbn in *; congruence|].
  cbn [Nat.eqb]. change (chain r1 rs s !! i = Some x) in Hx.
  assert (i < S (length rs))%nat as Hi.
  { apply lookup_lt_Some in Hx. rewrite chain_length in Hx. lia. }
  destruct (Z.ltb_spec (Z.of_nat (S i)) (nr_parties - 1)) as [Hlt|Hge].
  - destruct (lookup_lt_is_Some_2 rs i) as [a Ha]; [lia|].
    destruct (lookup_lt_is_Some_2 (r1 :: rs) i) as [b Hb]; [cbn; lia|].
    rewrite (chain_lookup_middle _ _ _ _ _ _ Ha Hb) in Hx.
    unfold index. replace (S i - 1)%nat with i by lia.
    change ((r1 :: rs) !! S i) with (rs !! i). rewrite Ha, Hb. cbn. congruence.
  - assert (i = length rs) as -> by lia.
    destruct (lookup_lt_is_Some_2 (r1 :: rs) (length rs)) as [b Hb]; [cbn; lia|].
    rewrite (chain_lookup_last _ _ _ _ Hb) in Hx.
    unfold index. replace (S (length rs) - 1)%nat with (length rs) by lia.
    rewrite Hb. cbn. congruence.
Qed.

(** [generate_shares] returns for every party count of at least two. *)
Lemma generate_shares_chain sec nr_parties kwargs g s :
  2 ≤ nr_parties →
  as_share sec kwargs = OK s →
  ∃ r1 rs,
    random_shares (Z.to_nat (nr_parties - 1)) (length (tensor s)) (session s) g
      = r1 :: rs ∧
    generate_shares sec nr_parties kwargs g = OK (r1 :: chain r1 rs s).
Proof.
  intros Hn Hs. unfold generate_shares. rewrite Hs. cbn.
  pose proof (random_shares_length (Z.to_nat (nr_parties - 1))
                (length (tensor s)) (session s) g) as Hlen.
  destruct (random_shares _ _ _ g) as [|r1 rs]; cbn in Hlen; [lia|].
  exists r1, rs. split; [done|]. apply second_loop. lia.
Qed.

Lemma sum_chain prev rs s :
  length (tensor prev) = length (tensor s) →
  Forall (λ r, length (tensor r) = length (tensor s)) rs →
  foldl tadd (wrap <$> tensor prev) (tensor <$> chain prev rs s)
  = wrap <$> tensor s.
Proof.
  revert prev. induction rs as [|r rs IH]; intros prev Hp Hrs; cbn.
  - by apply tadd_tsub.
  - inversion Hrs as [|? ? Hr Hrs']; subst.
    rewrite tadd_tsub by congruence. by apply IH.
Qed.


(** A tensor whose entries are ring elements already. *)
Definition in_ring (t : list Z) : Prop := Forall (λ z, wrap z = z) t.


(** Plain secrets are encoded into the ring by the constructor. *)
Lemma as_share_plain_in_ring sec kwargs s :
  as_share sec kwargs = OK s →
  (∀ s', sec ≠ SShare s') →
  in_ring (tensor s).
Proof.
  intros Hs Hplain. unfold in_ring.
  assert (∀ data, Forall (λ z, wrap z = z)
                    ((λ q, wrap (encode kwargs q)) <$> data)) as Hdata.
  { induction data; constructor; [apply wrap_wrap|done]. }
  destruct sec; cbn in Hs; try discriminate;
    try (injection Hs as <-; apply Hdata).
  by exfalso; eapply Hplain.
Qed.


(** C2, as the code has it.  [generate_shares] draws [nr_parties − 1]
    random shares [r_1 .. r_{n-1}] (here [rs !! 0 .. rs !! (n-2)]) and
    returns [share_0 = r_1], [share_i = r_{i+1} − r_i] for every middle rank
    [1 ≤ i ≤ n-2], and [share_{n-1} = secret − r_{n-1}]. *)
Theorem generate_shares_layout sec nr_parties kwargs g s :
  2 ≤ nr_parties →
  as_share sec kwargs = OK s →
  let rs := random_shares (Z.to_nat (nr_parties - 1))
              (length (tensor s)) (session s) g in
  length rs = Z.to_nat (nr_parties - 1) ∧
  ∃ shares,
    generate_shares sec nr_parties kwargs g = OK shares ∧
    length shares = Z.to_nat nr_parties ∧
    shares !! 0%nat = rs !! 0%nat ∧
    (∀ i : nat, (1 ≤ i ≤ Z.to_nat nr_parties - 2)%nat →
       ∃ r_i r_i1, rs !! (i - 1)%nat = Some r_i ∧ rs !! i = Some r_i1 ∧
                   shares !! i = Some (share_sub r_i1 r_i)) ∧
    (∃ r_last, rs !! (Z.to_nat nr_parties - 2)%nat = Some r_last ∧
               shares !! (Z.to_nat nr_parties - 1)%nat = Some (share_sub s r_last)).
Proof.
  intros Hn Hs rs. subst rs.
  destruct (generate_shares_chain sec nr_parties kwargs g s Hn Hs)
    as (r1 & rs & Hrs & Hgen).
  pose proof (random_shares_length (Z.to_nat (nr_parties - 1))
                (length (tensor s)) (session s) g) as Hlen.
  split; [done|]. rewrite Hrs in *. cbn in Hlen.
  exists (r1 :: chain r1 rs s). split; [done|]. split; [|split; [done|split]].
  - cbn. rewrite chain_length. lia.
  - intros i Hi. destruct i as [|i]; [lia|].
    replace (S i - 1)%nat with i by lia.
    destruct (lookup_lt_is_Some_2 rs i) as [a Ha]; [lia|].
    destruct (lookup_lt_is_Some_2 (r1 :: rs) i) as [b Hb]; [cbn; lia|].
    exists b, a. split; [done|]. split; [done|].
    by apply chain_lookup_middle.
  - replace (Z.to_nat nr_parties - 2)%nat with (length rs) by lia.
    replace (Z.to_nat nr_parties - 1)%nat with (S (length rs)) by lia.
    destruct (lookup_lt_is_Some_2 (r1 :: rs) (length rs)) as [b Hb]; [cbn; lia|].
    exists b. split; [done|]. by apply chain_lookup_last.
Qed.

(** *** Further properties of [generate_shares] *)

(** Below two parties (lines 284-303): with one party the second loop
    reads [random_shares[0]] from an empty list; with none, or a negative
    count, both ranges are empty and the list of shares is. *)
Theorem generate_shares_below_two sec nr_parties kwargs g s :
  as_share sec kwargs = OK s →
  nr_parties < 2 →
  generate_shares sec nr_parties kwargs g
  = if nr_parties =? 1 then Raise IndexError else OK [].
Proof.
  intros Hs Hn. unfold generate_shares. rewrite Hs. cbn.
  destruct (Z.eqb_spec nr_parties 1) as [->|Hne]; [done|].
  by replace (Z.to_nat nr_parties) with 0%nat by lia.
Qed.







Lemma chain_take prev rs s s' :
  take (length rs) (chain prev rs s) = take (length rs) (chain prev rs s').
Proof.
  revert prev. induction rs as [|r rs IH]; intros prev; cbn; [done|].
  by rewrite IH.
Qed.

(** The shares of all ranks but the last are made of the random draws
    alone: two secrets of one shape and session get the same ones. *)
Theorem generate_shares_masks sec sec' nr_parties kwargs kwargs' g s s' :
  2 ≤ nr_parties →
  as_share sec kwargs = OK s →
  as_share sec' kwargs' = OK s' →
  length (tensor s) = length (tensor s') →
  session s = session s' →
  ∃ shares shares',
    generate_shares sec nr_parties kwargs g = OK shares ∧
    generate_shares sec' nr_parties kwargs' g = OK shares' ∧
    take (Z.to_nat (nr_parties - 1)) shares
    = take (Z.to_nat (nr_parties - 1)) shares'.
Proof.
  intros Hn Hs Hs' Hlen Hsess.
  destruct (generate_shares_chain sec nr_parties kwargs g s Hn Hs)
    as (r1 & rs & Hrs & Hgen).
  destruct (generate_shares_chain sec' nr_parties kwargs' g s' Hn Hs')
    as (r1' & rs' & Hrs' & Hgen').
  rewrite <- Hlen, <- Hsess, Hrs in Hrs'. injection Hrs' as <- <-.
  exists (r1 :: chain r1 rs s), (r1 :: chain r1 rs s'). split; [done|]. split; [done|].
  pose proof (random_shares_length (Z.to_nat (nr_parties - 1))
                (length (tensor s)) (session s) g) as Hl.
  rewrite Hrs in Hl. cbn in Hl. rewrite <- Hl. cbn. f_equal. apply chain_take.
Qed.

(** *** The sum does not depend on the order of the shares *)





End Ring.

(** *** A concrete instance: the 64-bit ring *)

(** An encoder that scales by [base ^ precision] and rounds down. *)
Definition scale_encode (kwargs : ShareKwargs) (q : Q) : Z :=
  Qfloor (q * inject_Z (encoder_base kwargs ^ encoder_precision kwargs))%Q.

(** A generator that counts up from its seed. *)
Definition counter_draw (g : Z) : Z * Z := (g, g + 1).

Definition default_kwargs : ShareKwargs :=
  {| encoder_base := 2; encoder_precision := 16; kw_session := None |}.

Example generate_shares_three_parties :
  generate_shares 64 scale_encode Z counter_draw (SInt 2) 3 default_kwargs 10
  = OK [ {| tensor := [10]; session := None |};
         {| tensor := [1]; session := None |};
         {| tensor := [131061]; session := None |} ].
Proof. reflexivity. Qed.

(** Below two parties: one party finds no random share at index 0, and
    with none both loops are empty. *)
Example generate_shares_one_party :
  generate_shares 64 scale_encode Z counter_draw (SInt 2) 1 default_kwargs 10
  = Raise IndexError.
Proof. reflexivity. Qed.

Example generate_shares_no_party :
  generate_shares 64 scale_encode Z counter_draw (SInt 2) 0 default_kwargs 10
  = OK [].
Proof. reflexivity. Qed.

Example generate_shares_bad_secret :
  generate_shares 64 scale_encode Z counter_draw SOther 3 default_kwargs 10
  = Raise (ValueError SecretFormat).
Proof. reflexivity. Qed.


Lemma generate_shares_layout_witness :
  let rs := random_shares 64 Z counter_draw 2 1 None 10 in
  length rs = 2%nat ∧
  ∃ shares,
    generate_shares 64 scale_encode Z counter_draw (SInt 2) 3 default_kwargs 10
      = OK shares ∧
    length shares = 3%nat ∧
    shares !! 0%nat = rs !! 0%nat ∧
    (∀ i : nat, (1 ≤ i ≤ 1)%nat →
       ∃ r_i r_i1, rs !! (i - 1)%nat = Some r_i ∧ rs !! i = Some r_i1 ∧
                   shares !! i = Some (share_sub 64 r_i1 r_i)) ∧
    (∃ r_last, rs !! 1%nat = Some r_last ∧
               shares !! 2%nat
               = Some (share_sub 64 {| tensor := [131072]; session := None |} r_last)).
Proof.
  apply (generate_shares_layout 64 scale_encode Z counter_draw
           (SInt 2) 3 default_kwargs 10
           {| tensor := [131072]; session := None |}); [lia | reflexivity].
Defined.

(** C2 as worded fails for three parties: the middle share is
    [r_2 − r_1 = 1], where the wording has [r_1 − r_2 = −1]. *)
Lemma generate_shares_not_as_worded :
  generate_shares 64 scale_encode Z counter_draw (SInt 2) 3 default_kwargs 10
  ≠ OK (shares_as_worded 64
          {| tensor := [131072]; session := None |}
          (random_shares 64 Z counter_draw 2 1 None 10)).
Proof. vm_compute. discriminate. Qed.

(** The shares as worded would not even sum to the secret. *)
Example shares_as_worded_sum :
  py_sum 64 (tensor <$> shares_as_worded 64
               {| tensor := [131072]; session := None |}
               (random_shares 64 Z counter_draw 2 1 None 10))
  = SumTensor [131070].
Proof. reflexivity. Qed.

Lemma generate_shares_below_two_witness :
  generate_shares 64 scale_encode Z counter_draw (SFloat 0.5) 1 default_kwargs 10
  = if 1 =? 1 then Raise IndexError else OK [].
Proof.
  apply (generate_shares_below_two 64 scale_encode Z counter_draw
           (SFloat 0.5) 1 default_kwargs 10
           {| tensor := [32768]; session := None |}); [reflexivity | lia].
Defined.


Lemma generate_shares_masks_witness :
  ∃ shares shares',
    generate_shares 64 scale_encode Z counter_draw (SInt 2) 3 default_kwargs 10
      = OK shares ∧
    generate_shares 64 scale_encode Z counter_draw (SInt 5) 3 default_kwargs 10
      = OK shares' ∧
    take 2 shares = take 2 shares'.
Proof.
  apply (generate_shares_masks 64 scale_encode Z counter_draw
           (SInt 2) (SInt 5) 3 default_kwargs default_kwargs 10
           {| tensor := [131072]; session := None |}
           {| tensor := [327680]; session := None |});
    [lia | reflexivity | reflexivity | reflexivity | reflexivity].
Defined.


End Sharing.

(** ** The trusted dealer: [CryptoPrimitiveProvider] *)

(** The value [json.dumps] renders; the text itself is not modelled. *)
#[warnings="-register-all"]
Inductive json :=
| JNull
| JBool (b : bool)
| JNum (z : Z)
| JStr (s : string)
| JArr (items : list json)
| JObj (fields : list (string * json)).

(** [d[k]] on the fields of an object, in insertion order. *)
Fixpoint assoc {A} (k : string) (d : list (string * A)) : option A :=
  match d with
  | [] => None
  | (k', v) :: d' => if String.eqb k' k then Some v else assoc k d'
  end.

(** The entries a rendered log holds under a tag. *)
Definition entries_under (tag : string) (j : json) : list json :=
  match j with
  | JObj fields =>
      match assoc tag fields with
      | Some (JArr items) => items
      | _ => []
      end
  | _ => []
  end.

Module Provider.

Section Dealer.

(** Values passed as keyword arguments; a kwargs dict maps names to them. *)
Variable Value : Type.
Local Abbreviation Kwargs := (gmap string Value).

(** One party's part of a primitive batch. *)
Variable Primitive : Type.

(** [session.crypto_store] and its [populate_store], of [sympc.store],
    which these sources do not include: the call changes the store and may
    raise. *)
Variable Store : Type.
Variable populate_store :
  string → Primitive → Kwargs → Store → Store * result unit.

(** How [json.dumps] renders a kwargs dict; [None] when a value in it is not
    serialisable ([json.dumps] raises [TypeError]). *)
Variable dumps_kwargs : Kwargs → option json.

(** What a registered generator returns: a list with one entry per party,
    or some other object. *)
Inductive gen_output :=
| GenList (primitives : list Primitive)
| GenOther (obj : nat).

(** The class attributes, the stores of the sessions (a session is named by
    its index here) and the file [_FILENAME]. *)
Record state := {
  _func_providers : gmap string (Kwargs → result gen_output);
  _ops_list : list (string * list (option Kwargs));
  _LOGGING : bool;
  crypto_store : nat → Store;
  primitive_log : option json
}.

Definition set_ops_list (l : list (string * list (option Kwargs))) (st : state) :=
  {| _func_providers := _func_providers st; _ops_list := l;
     _LOGGING := _LOGGING st; crypto_store := crypto_store st;
     primitive_log := primitive_log st |}.

Definition set_LOGGING (b : bool) (st : state) :=
  {| _func_providers := _func_providers st; _ops_list := _ops_list st;
     _LOGGING := b; crypto_store := crypto_store st;
     primitive_log := primitive_log st |}.

Definition set_crypto_store (f : nat → Store) (st : state) :=
  {| _func_providers := _func_providers st; _ops_list := _ops_list st;
     _LOGGING := _LOGGING st; crypto_store := f;
     primitive_log := primitive_log st |}.

Definition set_primitive_log (j : option json) (st : state) :=
  {| _func_providers := _func_providers st; _ops_list := _ops_list st;
     _LOGGING := _LOGGING st; crypto_store := crypto_store st;
     primitive_log := j |}.

(** [_ops_list[op_str].append(p_kwargs)] on a [DefaultDict(list)]: a new
    tag is added after the tags already there. *)
Fixpoint ops_append (op_str : string) (p_kwargs : option Kwargs)
    (log : list (string * list (option Kwargs)))
  : list (string * list (option Kwargs)) :=
  match log with
  | [] => [(op_str, [p_kwargs])]
  | (tag, entries) :: log' =>
      if String.eqb tag op_str then (tag, entries ++ [p_kwargs]) :: log'
      else (tag, entries) :: ops_append op_str p_kwargs log'
  end.

(** Lines 82-85: the loop of [_transfer_primitives_to_parties]. *)
Fixpoint populate_all (op_str : string) (p_kwargs : Kwargs)
    (pairs : list (Primitive * nat)) (st : state) : state * result unit :=
  match pairs with
  | [] => (st, OK ())
  | (primitives_party, session) :: pairs' =>
      let '(store, r) :=
        populate_store op_str primitives_party p_kwargs (crypto_store st session) in
      let st' := set_crypto_store (<[session := store]> (crypto_store st)) st in
      match r with
      | OK _ => populate_all op_str p_kwargs pairs' st'
      | Raise e => (st', Raise e)
      end
  end.

Definition _transfer_primitives_to_parties (op_str : string)
    (primitives : gen_output) (sessions : list nat) (p_kwargs : Kwargs)
    (st : state) : state * result unit :=
  match primitives with
  | GenOther _ => (st, Raise (ValueError PrimitivesNotList))
  | GenList prims =>
      if negb (length prims =? length sessions)%nat then
        (st, Raise (ValueError (CountMismatch (length prims) (length sessions))))
      else populate_all op_str p_kwargs (zip prims sessions) st
  end.

(** [p_kwargs] is [None] or a dict; the default of both kwargs is [{}]. *)
Definition generate_primitives (op_str : string) (sessions : list nat)
    (g_kwargs : Kwargs) (p_kwargs : option Kwargs) (st : state)
  : state * result gen_output :=
  match _func_providers st !! op_str with
  | None => (st, Raise (ValueError (NotRegistered op_str)))
  | Some generator =>
      match generator g_kwargs with
      | Raise e => (st, Raise e)
      | OK primitives =>
          let st1 :=
            if _LOGGING st
            then set_ops_list (ops_append op_str p_kwargs (_ops_list st)) st
            else st in
          match p_kwargs with
          | None => (st1, OK primitives)
          | Some kwargs =>
              let '(st2, r) :=
                _transfer_primitives_to_parties op_str primitives sessions kwargs st1 in
              match r with
              | OK _ => (st2, OK primitives)
              | Raise e => (st2, Raise e)
              end
          end
      end
  end.

(** The call that leaves both kwargs out. *)
Definition generate_primitives_default (op_str : string) (sessions : list nat) :=
  generate_primitives op_str sessions ∅ (Some ∅).

Definition start_logging (st : state) : state * result unit :=
  (set_LOGGING true st, OK ()).

(** [json.dumps(_ops_list)]: an object with one array per tag; a [None]
    entry renders as [null]. *)
Definition dumps_entry (p_kwargs : option Kwargs) : option json :=
  match p_kwargs with
  | None => Some JNull
  | Some kwargs => dumps_kwargs kwargs
  end.

Definition dumps_tag (field : string * list (option Kwargs))
  : option (string * json) :=
  items ← mapM dumps_entry field.2; Some (field.1, JArr items).

Definition dumps_log (log : list (string * list (option Kwargs))) : option json :=
  JObj <$> mapM dumps_tag log.

Definition stop_logging (generate_file : bool) (st : state) : state * result json :=
  let st1 := set_LOGGING false st in
  match dumps_log (_ops_list st1) with
  | None => (st1, Raise TypeError)
  | Some log_json =>
      let st2 := set_ops_list [] st1 in
      let st3 := if generate_file
                 then set_primitive_log (Some log_json) st2 else st2 in
      (st3, OK log_json)
  end.

(** A caller's [generate_primitives] calls for one tag, one after the
    other; what a call returns or raises is dropped, what it changed stays. *)
Record call := {
  c_sessions : list nat;
  c_g_kwargs : Kwargs;
  c_p_kwargs : option Kwargs
}.

Fixpoint run_calls (op_str : string) (calls : list call) (st : state) : state :=
  match calls with
  | [] => st
  | c :: calls' =>
      run_calls op_str calls'
        (generate_primitives op_str (c_sessions c) (c_g_kwargs c) (c_p_kwargs c) st).1
  end.


(** *** Frame of the distribution loop *)

Lemma populate_all_frame op_str p_kwargs pairs st :
  let st' := (populate_all op_str p_kwargs pairs st).1 in
  _func_providers st' = _func_providers st ∧ _ops_list st' = _ops_list st ∧
  _LOGGING st' = _LOGGING st ∧ primitive_log st' = primitive_log st.
Proof.
  revert st. induction pairs as [|[p sess] pairs IH]; intros st; cbn; [done|].
  destruct (populate_store _ _ _ _) as [store [u|e]]; cbn; [|done].
  destruct (IH (set_crypto_store (<[sess:=store]> (crypto_store st)) st))
    as (? & ? & ? & ?). done.
Qed.

Lemma transfer_frame op_str primitives sessions p_kwargs st :
  let st' := (_transfer_primitives_to_parties op_str primitives sessions p_kwargs st).1 in
  _func_providers st' = _func_providers st ∧ _ops_list st' = _ops_list st ∧
  _LOGGING st' = _LOGGING st ∧ primitive_log st' = primitive_log st.
Proof.
  unfold _transfer_primitives_to_parties. destruct primitives as [prims|]; [|done].
  destruct (negb _); [done|]. apply populate_all_frame.
Qed.

(** With [p_kwargs = None] the primitives are returned and no store is
    touched. *)
Lemma generate_primitives_None op_str sessions g_kwargs st generator primitives :
  _func_providers st !! op_str = Some generator →
  generator g_kwargs = OK primitives →
  ∃ st', generate_primitives op_str sessions g_kwargs None st = (st', OK primitives) ∧
         crypto_store st' = crypto_store st.
Proof.
  intros Hreg Hgen. unfold generate_primitives. rewrite Hreg, Hgen.
  eexists. split; [done|]. by destruct (_LOGGING st).
Qed.

(** C3.  For a registered tag whose generator returns: with [p_kwargs]
    the skip sentinel [None], [generate_primitives] returns the generated
    primitives and leaves every store as it was; with [p_kwargs] given and a
    primitives list whose length differs from the number of sessions, it
    raises the count-mismatch [ValueError] and every store is as it was. *)
Theorem generate_primitives_skip_or_mismatch
    op_str sessions g_kwargs st generator primitives :
  _func_providers st !! op_str = Some generator →
  generator g_kwargs = OK primitives →
  (∃ st', generate_primitives op_str sessions g_kwargs None st
            = (st', OK primitives) ∧
          crypto_store st' = crypto_store st) ∧
  (∀ kwargs prims,
     primitives = GenList prims →
     length prims ≠ length sessions →
     ∃ st', generate_primitives op_str sessions g_kwargs (Some kwargs) st
              = (st', Raise (ValueError
                               (CountMismatch (length prims) (length sessions)))) ∧
            crypto_store st' = crypto_store st).
Proof.
  intros Hreg Hgen. split; [by eapply generate_primitives_None|].
  intros kwargs prims -> Hlen.
  unfold generate_primitives. rewrite Hreg, Hgen.
  unfold _transfer_primitives_to_parties.
  apply Nat.eqb_neq in Hlen. rewrite Hlen. cbn.
  eexists. split; [done|]. by destruct (_LOGGING st).
Qed.

(** *** Distribution *)

Lemma populate_all_stores op_str p_kwargs prims sessions st :
  length prims = length sessions →
  NoDup sessions →
  Forall2 (λ p sess,
             (populate_store op_str p p_kwargs (crypto_store st sess)).2 = OK ())
          prims sessions →
  ∃ st', populate_all op_str p_kwargs (zip prims sessions) st = (st', OK ()) ∧
    (∀ i p sess, prims !! i = Some p → sessions !! i = Some sess →
       crypto_store st' sess
       = (populate_store op_str p p_kwargs (crypto_store st sess)).1) ∧
    (∀ sess, sess ∉ sessions → crypto_store st' sess = crypto_store st sess).
Proof.
  revert sessions st.
  induction prims as [|p prims IH]; intros [|sess sessions] st Hlen Hnd Hok;
    try discriminate.
  { exists st. cbn. split; [done|]. split; [by intros [|i]|done]. }
  pose proof (NoDup_cons_1_1 _ _ Hnd) as Hnotin.
  apply NoDup_cons_1_2 in Hnd.
  apply Forall2_cons_1 in Hok as [Hp Hok].
  cbn [zip zip_with populate_all].
  destruct (populate_store op_str p p_kwargs (crypto_store st sess))
    as [store r] eqn:Hpop. cbn in Hp. subst r.
  set (st1 := set_crypto_store (<[sess:=store]> (crypto_store st)) st).
  destruct (IH sessions st1) as (st' & Hrun & Hin & Hout).
  - cbn in Hlen. lia.
  - done.
  - apply Forall2_same_length_lookup_2; [by eapply Forall2_length|].
    intros i p' sess' Hi Hs. cbn.
    rewrite fn_lookup_insert_ne.
    + exact (Forall2_lookup_lr _ _ _ _ _ _ Hok Hi Hs).
    + intros ->. apply Hnotin. by eapply list_elem_of_lookup_2.
  - exists st'. split; [done|]. split.
    + intros [|i] p' sess' Hi Hs; cbn in Hi, Hs.
      * injection Hi as <-. injection Hs as <-.
        rewrite Hout by done. subst st1. cbn.
        by rewrite fn_lookup_insert, Hpop.
      * rewrite (Hin i p' sess' Hi Hs). cbn.
        rewrite fn_lookup_insert_ne; [done|].
        intros ->. apply Hnotin. by eapply list_elem_of_lookup_2.
    + intros sess' Hnot. apply not_elem_of_cons in Hnot as [Hne Hnot].
      rewrite Hout by done. cbn. by rewrite fn_lookup_insert_ne.
Qed.

(** Any [p_kwargs] that is a dict has the primitives handed to the
    stores, party by party. *)
Lemma generate_primitives_distributes
    op_str sessions g_kwargs kwargs st generator prims :
  _func_providers st !! op_str = Some generator →
  generator g_kwargs = OK (GenList prims) →
  length prims = length sessions →
  NoDup sessions →
  Forall2 (λ p sess,
             (populate_store op_str p kwargs (crypto_store st sess)).2 = OK ())
          prims sessions →
  ∃ st', generate_primitives op_str sessions g_kwargs (Some kwargs) st
           = (st', OK (GenList prims)) ∧
    (∀ i p sess, prims !! i = Some p → sessions !! i = Some sess →
       crypto_store st' sess
       = (populate_store op_str p kwargs (crypto_store st sess)).1) ∧
    (∀ sess, sess ∉ sessions → crypto_store st' sess = crypto_store st sess).
Proof.
  intros Hreg Hgen Hlen Hnd Hok.
  unfold generate_primitives. rewrite Hreg, Hgen.
  unfold _transfer_primitives_to_parties.
  rewrite Hlen, Nat.eqb_refl. cbn [negb].
  set (st1 := if _LOGGING st then _ else st).
  assert (crypto_store st1 = crypto_store st) as Hst1
    by (subst st1; by destruct (_LOGGING st)).
  destruct (populate_all_stores op_str kwargs prims sessions st1 Hlen Hnd)
    as (st' & Hrun & Hin & Hout).
  { by rewrite Hst1. }
  rewrite Hrun. exists st'. rewrite Hst1 in Hin, Hout. done.
Qed.

(** C10.  The default of [p_kwargs] is the empty dict, which is not
    [None]: the call that leaves the kwargs out hands each party's primitive
    to that party's store.  Only [p_kwargs = None] skips the distribution and
    leaves the stores as they were. *)
Theorem default_kwargs_distribute op_str sessions st generator prims :
  _func_providers st !! op_str = Some generator →
  generator ∅ = OK (GenList prims) →
  length prims = length sessions →
  NoDup sessions →
  Forall2 (λ p sess,
             (populate_store op_str p ∅ (crypto_store st sess)).2 = OK ())
          prims sessions →
  (∃ st', generate_primitives_default op_str sessions st
            = (st', OK (GenList prims)) ∧
     ∀ i p sess, prims !! i = Some p → sessions !! i = Some sess →
       crypto_store st' sess
       = (populate_store op_str p ∅ (crypto_store st sess)).1) ∧
  (∃ st', generate_primitives op_str sessions ∅ None st
            = (st', OK (GenList prims)) ∧
          crypto_store st' = crypto_store st).
Proof.
  intros Hreg Hgen Hlen Hnd Hok. split.
  - destruct (generate_primitives_distributes op_str sessions ∅ ∅ st
                generator prims Hreg Hgen Hlen Hnd Hok) as (st' & Hrun & Hin & _).
    by exists st'.
  - by eapply generate_primitives_None.
Qed.


(** *** The log *)

Lemma generate_primitives_log op_str sessions g_kwargs p_kwargs st generator out :
  _func_providers st !! op_str = Some generator →
  generator g_kwargs = OK out →
  _LOGGING st = true →
  let st' := (generate_primitives op_str sessions g_kwargs p_kwargs st).1 in
  _func_providers st' = _func_providers st ∧
  _ops_list st' = ops_append op_str p_kwargs (_ops_list st) ∧
  _LOGGING st' = true ∧ primitive_log st' = primitive_log st.
Proof.
  intros Hreg Hgen Hlog. unfold generate_primitives.
  rewrite Hreg, Hgen, Hlog. destruct p_kwargs as [kwargs|]; cbn; [|done].
  set (st1 := set_ops_list _ st).
  pose proof (transfer_frame op_str out sessions kwargs st1) as Hframe.
  destruct (_transfer_primitives_to_parties _ _ _ _ st1) as [st2 [u|e]];
    cbn in *; destruct Hframe as (-> & -> & -> & ->); done.
Qed.

Lemma run_calls_log op_str calls st generator :
  _func_providers st !! op_str = Some generator →
  Forall (λ c, ∃ out, generator (c_g_kwargs c) = OK out) calls →
  _LOGGING st = true →
  let st' := run_calls op_str calls st in
  _ops_list st'
    = foldl (λ log c, ops_append op_str (c_p_kwargs c) log) (_ops_list st) calls ∧
  primitive_log st' = primitive_log st.
Proof.
  intros Hreg Hgen. revert st Hreg.
  induction Hgen as [|c calls [out Hout] _ IH]; intros st Hreg Hlog; cbn; [done|].
  destruct (generate_primitives_log op_str (c_sessions c) (c_g_kwargs c)
              (c_p_kwargs c) st generator out Hreg Hout Hlog)
    as (Hprov & Hops & Hlog' & Hfile).
  destruct (IH _ ltac:(by rewrite Hprov) Hlog') as [IHops IHfile].
  cbn in IHops, IHfile. by rewrite IHops, IHfile, Hops, Hfile.
Qed.

Lemma ops_append_fresh op_str p_kwargs log :
  assoc op_str log = None →
  ops_append op_str p_kwargs log = log ++ [(op_str, [p_kwargs])].
Proof.
  induction log as [|[tag entries] log IH]; cbn; [done|].
  destruct (String.eqb tag op_str); [done|]. intros H. by rewrite IH.
Qed.

Lemma ops_append_last op_str p_kwargs log entries :
  assoc op_str log = None →
  ops_append op_str p_kwargs (log ++ [(op_str, entries)])
  = log ++ [(op_str, entries ++ [p_kwargs])].
Proof.
  induction log as [|[tag entries'] log IH]; cbn.
  - by rewrite String.eqb_refl.
  - destruct (String.eqb tag op_str); [done|]. intros H. by rewrite IH.
Qed.

(** The log after the calls: the tags it had, then the tag of the calls
    with one entry per call, in call order. *)
Lemma foldl_ops_append op_str calls log :
  assoc op_str log = None →
  foldl (λ log c, ops_append op_str (c_p_kwargs c) log) log calls
  = match calls with
    | [] => log
    | _ => log ++ [(op_str, c_p_kwargs <$> calls)]
    end.
Proof.
  intros Hfresh. destruct calls as [|c calls]; [done|].
  cbn [foldl]. rewrite ops_append_fresh by done.
  change [c_p_kwargs c] with (c_p_kwargs <$> [c]).
  change (c :: calls) with ([c] ++ calls).
  generalize [c] as done_calls. induction calls as [|c' calls IH]; intros done_calls.
  - by rewrite app_nil_r.
  - cbn [foldl]. rewrite ops_append_last by done.
    replace (done_calls ++ c' :: calls) with ((done_calls ++ [c']) ++ calls)
      by (by rewrite <- app_assoc).
    rewrite <- IH. by rewrite fmap_app.
Qed.

Lemma dumps_tags_assoc tag log old :
  mapM dumps_tag log = Some old →
  assoc tag log = None →
  assoc tag old = None.
Proof.
  intros Hdump%mapM_Some_1.
  induction Hdump as [|[k entries] [k' j] log old Hf _ IH]; [done|].
  unfold dumps_tag in Hf. cbn in Hf.
  destruct (mapM dumps_entry entries); cbn in Hf; [|done].
  injection Hf as <- <-. cbn. destruct (String.eqb k tag); [done|]. apply IH.
Qed.

Lemma assoc_app_fresh {A} tag (d : list (string * A)) v :
  assoc tag d = None → assoc tag (d ++ [(tag, v)]) = Some v.
Proof.
  induction d as [|[k w] d IH]; cbn.
  - by rewrite String.eqb_refl.
  - by destruct (String.eqb k tag).
Qed.

(** C4.  From a state whose log holds nothing under the tag (as at
    process start, or after a [stop_logging]) and renders: after
    [start_logging] and [k] calls of [generate_primitives] for the
    registered tag, each with a generator that returns and serialisable
    populate kwargs, [stop_logging] returns a log with exactly [k] entries
    under the tag, the populate kwargs of the calls in order (whatever became
    of the distribution); afterwards the in-memory log is empty and logging
    is off, whether or not the file was requested, and the file holds the
    log exactly when it was. *)
Theorem logging_session tag generator calls generate_file st old entries :
  _func_providers st !! tag = Some generator →
  assoc tag (_ops_list st) = None →
  mapM dumps_tag (_ops_list st) = Some old →
  Forall (λ c, ∃ out, generator (c_g_kwargs c) = OK out) calls →
  mapM dumps_entry (c_p_kwargs <$> calls) = Some entries →
  let st1 := run_calls tag calls (start_logging st).1 in
  ∃ log_json st2,
    stop_logging generate_file st1 = (st2, OK log_json) ∧
    entries_under tag log_json = entries ∧
    length entries = length calls ∧
    _ops_list st2 = [] ∧
    _LOGGING st2 = false ∧
    primitive_log st2
      = if generate_file then Some log_json else primitive_log st.
Proof.
  intros Hreg Hfresh Hold Hgen Hentries st1.
  destruct (run_calls_log tag calls (start_logging st).1 generator Hreg Hgen eq_refl)
    as [Hops Hfile].
  fold st1 in Hops, Hfile. cbn in Hops, Hfile.
  rewrite foldl_ops_append in Hops by done.
  assert (length entries = length calls) as Hlen.
  { apply length_mapM in Hentries. by rewrite length_fmap in Hentries. }
  pose proof (dumps_tags_assoc tag _ _ Hold Hfresh) as Hfresh'.
  unfold stop_logging. cbn [_ops_list set_LOGGING]. rewrite Hops.
  destruct calls as [|c calls].
  - unfold dumps_log. rewrite Hold. cbn.
    injection Hentries as <-.
    eexists _, _. split; [done|]. cbn. rewrite Hfresh'.
    by destruct generate_file.
  - assert (mapM dumps_tag (_ops_list st ++ [(tag, c_p_kwargs <$> c :: calls)])
            = Some (old ++ [(tag, JArr entries)])) as Hall.
    { apply mapM_Some_2, Forall2_app; [by apply mapM_Some_1|].
      constructor; [|constructor]. unfold dumps_tag. cbn [fst snd].
      by rewrite Hentries. }
    unfold dumps_log. rewrite Hall. cbn.
    eexists _, _. split; [done|]. unfold entries_under.
    rewrite assoc_app_fresh by done.
    by destruct generate_file.
Qed.

(** *** Further properties of the dealer *)

Lemma ops_append_assoc op_str p_kwargs log :
  assoc op_str (ops_append op_str p_kwargs log)
  = Some (default [] (assoc op_str log) ++ [p_kwargs]).
Proof.
  induction log as [|[tag entries] log IH]; cbn.
  - by rewrite String.eqb_refl.
  - destruct (String.eqb tag op_str) eqn:Heq; cbn; by rewrite Heq.
Qed.

Lemma ops_append_assoc_ne op_str p_kwargs log tag :
  tag ≠ op_str →
  assoc tag (ops_append op_str p_kwargs log) = assoc tag log.
Proof.
  intros Hne. induction log as [|[tag' entries] log IH]; cbn.
  - apply String.eqb_neq in Hne. rewrite String.eqb_sym. by rewrite Hne.
  - destruct (String.eqb tag' op_str) eqn:Heq; cbn.
    + apply String.eqb_eq in Heq as ->.
      apply String.eqb_neq in Hne. rewrite String.eqb_sym. by rewrite Hne.
    + by rewrite IH.
Qed.

(** Line 54 on a log with several tags: while logging, a call whose
    generator returns adds its populate kwargs at the end of the entries of
    its own tag and leaves the entries of every other tag as they were,
    whatever becomes of the distribution. *)
Theorem generate_primitives_logs_under_tag
    op_str sessions g_kwargs p_kwargs st generator out :
  _func_providers st !! op_str = Some generator →
  generator g_kwargs = OK out →
  _LOGGING st = true →
  let st' := (generate_primitives op_str sessions g_kwargs p_kwargs st).1 in
  assoc op_str (_ops_list st')
    = Some (default [] (assoc op_str (_ops_list st)) ++ [p_kwargs]) ∧
  ∀ tag, tag ≠ op_str → assoc tag (_ops_list st') = assoc tag (_ops_list st).
Proof.
  intros Hreg Hgen Hlog.
  destruct (generate_primitives_log op_str sessions g_kwargs p_kwargs st
              generator out Hreg Hgen Hlog) as (_ & Hops & _ & _).
  cbn in Hops |- *. rewrite Hops. split; [apply ops_append_assoc|].
  intros tag Hne. by apply ops_append_assoc_ne.
Qed.

(** The logging flag is only changed by [start_logging] and
    [stop_logging], and a call made while logging is off leaves the log
    alone. *)
Lemma generate_primitives_flag op_str sessions g_kwargs p_kwargs st :
  let st' := (generate_primitives op_str sessions g_kwargs p_kwargs st).1 in
  _LOGGING st' = _LOGGING st ∧
  (_LOGGING st = false → _ops_list st' = _ops_list st).
Proof.
  unfold generate_primitives.
  destruct (_func_providers st !! op_str) as [generator|]; [|done].
  destruct (generator g_kwargs) as [out|e]; [|done].
  set (st1 := if _LOGGING st then _ else st).
  assert (_LOGGING st1 = _LOGGING st ∧
          (_LOGGING st = false → _ops_list st1 = _ops_list st)) as [Hflag Hidle].
  { subst st1. destruct (_LOGGING st) eqn:Hl; cbn; rewrite ?Hl; done. }
  destruct p_kwargs as [kwargs|]; [|done].
  pose proof (transfer_frame op_str out sessions kwargs st1) as Hframe.
  destruct (_transfer_primitives_to_parties _ _ _ _ st1) as [st2 [u|e]];
    cbn in *; destruct Hframe as (_ & -> & -> & _); done.
Qed.

(** What a caller can do to the dealer. *)
Inductive command :=
| CmdStart
| CmdStop (generate_file : bool)
| CmdGenerate (op_str : string) (c : call).

Definition exec (st : state) (cmd : command) : state :=
  match cmd with
  | CmdStart => (start_logging st).1
  | CmdStop generate_file => (stop_logging generate_file st).1
  | CmdGenerate op_str c =>
      (generate_primitives op_str (c_sessions c) (c_g_kwargs c) (c_p_kwargs c) st).1
  end.

(** While logging is off, the in-memory log is empty. *)
Definition idle_log_empty (st : state) : Prop :=
  _LOGGING st = false → _ops_list st = [].

Lemma dumps_log_total log :
  (∀ kwargs, is_Some (dumps_kwargs kwargs)) → is_Some (dumps_log log).
Proof.
  intros Htotal. unfold dumps_log.
  assert (is_Some (mapM dumps_tag log)) as [fields ->]; [|by eexists].
  apply mapM_is_Some_2. apply Forall_forall. intros [tag entries] _.
  unfold dumps_tag, compose. cbn.
  assert (is_Some (mapM dumps_entry entries)) as [items ->]; [|by eexists].
  apply mapM_is_Some_2. apply Forall_forall. intros [kwargs|] _; cbn; [|by eexists].
  apply Htotal.
Qed.

(** When every populate kwargs is serialisable, no sequence of
    [start_logging], [stop_logging] and [generate_primitives] calls, failed
    ones included, leaves entries in the log while logging is off. *)
Theorem idle_log_stays_empty cmds st :
  (∀ kwargs, is_Some (dumps_kwargs kwargs)) →
  idle_log_empty st →
  idle_log_empty (foldl exec st cmds).
Proof.
  intros Htotal. revert st.
  induction cmds as [|cmd cmds IH]; intros st Hinv; [done|].
  cbn [foldl]. apply IH. clear IH. unfold idle_log_empty in *.
  destruct cmd as [|generate_file|op_str c]; cbn [exec].
  - done.
  - intros _. unfold stop_logging.
    destruct (dumps_log_total (_ops_list (set_LOGGING false st)) Htotal)
      as [log_json ->].
    by destruct generate_file.
  - destruct (generate_primitives_flag op_str (c_sessions c) (c_g_kwargs c)
                (c_p_kwargs c) st) as [Hflag Hidle].
    cbn in Hflag, Hidle. rewrite Hflag. intros Hoff.
    rewrite Hidle by done. by apply Hinv.
Qed.

(** After a [stop_logging] that returned, another one returns the empty
    object, and writes it over the file when asked for a file. *)
Theorem stop_logging_again generate_file generate_file' st st' log_json :
  stop_logging generate_file st = (st', OK log_json) →
  ∃ st'', stop_logging generate_file' st' = (st'', OK (JObj [])) ∧
          _ops_list st'' = [] ∧
          primitive_log st''
            = if generate_file' then Some (JObj []) else primitive_log st'.
Proof.
  unfold stop_logging. destruct (dumps_log _) as [j|]; [|done].
  intros [= <- <-].
  destruct generate_file; cbn;
    (eexists; split; [reflexivity|]; by destruct generate_file').
Qed.

(** A call with a populate dict that returns has distributed: the tag
    is registered, the value returned is what the generator returned, and
    that is a list with one entry per session. *)
Theorem generate_primitives_returned
    op_str sessions g_kwargs kwargs st st' out :
  generate_primitives op_str sessions g_kwargs (Some kwargs) st = (st', OK out) →
  ∃ generator prims,
    _func_providers st !! op_str = Some generator ∧
    generator g_kwargs = OK out ∧
    out = GenList prims ∧
    length prims = length sessions.
Proof.
  unfold generate_primitives.
  destruct (_func_providers st !! op_str) as [generator|]; [|done].
  destruct (generator g_kwargs) as [out'|e] eqn:Hgen; [|done].
  destruct (_transfer_primitives_to_parties _ _ _ _ _) as [st2 [u|e]] eqn:Htr; [|done].
  intros [= <- <-]. unfold _transfer_primitives_to_parties in Htr.
  destruct out' as [prims|obj]; [|done].
  destruct (Nat.eqb_spec (length prims) (length sessions)) as [Hlen|Hlen]; [|done].
  by exists generator, prims.
Qed.

(** *** A distribution that fails on the way *)

Lemma populate_all_fails op_str p_kwargs prims sessions st i p sess store e :
  length prims = length sessions →
  NoDup sessions →
  prims !! i = Some p →
  sessions !! i = Some sess →
  populate_store op_str p p_kwargs (crypto_store st sess) = (store, Raise e) →
  (∀ j pj sj, (j < i)%nat → prims !! j = Some pj → sessions !! j = Some sj →
     (populate_store op_str pj p_kwargs (crypto_store st sj)).2 = OK ()) →
  ∃ st', populate_all op_str p_kwargs (zip prims sessions) st = (st', Raise e) ∧
    (∀ j pj sj, (j < i)%nat → prims !! j = Some pj → sessions !! j = Some sj →
       crypto_store st' sj
       = (populate_store op_str pj p_kwargs (crypto_store st sj)).1) ∧
    crypto_store st' sess = store ∧
    (∀ sj, sj ∉ take (S i) sessions → crypto_store st' sj = crypto_store st sj).
Proof.
  revert prims sessions st.
  induction i as [|i IH]; intros [|p0 prims] [|s0 sessions] st Hlen Hnd Hp Hs Hfail Hok;
    try discriminate.
  - cbn in Hp, Hs. injection Hp as ->. injection Hs as ->.
    cbn [zip zip_with populate_all]. rewrite Hfail.
    eexists. split; [done|]. split; [intros; lia|]. cbn. split.
    + by rewrite fn_lookup_insert.
    + intros sj Hsj. rewrite fn_lookup_insert_ne; [done|].
      intros ->. apply Hsj. rewrite take_0. by apply list_elem_of_here.
  - cbn in Hp, Hs.
    pose proof (NoDup_cons_1_1 _ _ Hnd) as Hnotin.
    apply NoDup_cons_1_2 in Hnd.
    cbn [zip zip_with populate_all].
    pose proof (Hok 0%nat p0 s0 ltac:(lia) eq_refl eq_refl) as H0.
    destruct (populate_store op_str p0 p_kwargs (crypto_store st s0))
      as [store0 r0] eqn:Hpop0. cbn in H0. subst r0.
    set (st1 := set_crypto_store (<[s0:=store0]> (crypto_store st)) st).
    assert (∀ sj, sj ∈ sessions → crypto_store st1 sj = crypto_store st sj) as Hsame.
    { intros sj Hsj. cbn. rewrite fn_lookup_insert_ne; [done|]. by intros ->. }
    destruct (IH prims sessions st1) as (st' & Hrun & Hbefore & Hat & Hafter).
    + cbn in Hlen. lia.
    + done.
    + done.
    + done.
    + rewrite Hsame by (by eapply list_elem_of_lookup_2). done.
    + intros j pj sj Hj Hpj Hsj.
      rewrite Hsame by (by eapply list_elem_of_lookup_2).
      apply (Hok (S j) pj sj); [lia|done|done].
    + exists st'. split; [done|]. split; [|split; [done|]].
      * intros [|j] pj sj Hj Hpj Hsj; cbn in Hpj, Hsj.
        -- injection Hpj as <-. injection Hsj as <-.
           rewrite Hafter.
           ++ cbn. by rewrite fn_lookup_insert, Hpop0.
           ++ intros Hin%elem_of_take. destruct Hin as (k & Hk & _).
              apply Hnotin. by eapply list_elem_of_lookup_2.
        -- rewrite (Hbefore j pj sj ltac:(lia) Hpj Hsj).
           by rewrite Hsame by (by eapply list_elem_of_lookup_2).
      * intros sj Hsj. cbn [take] in Hsj.
        apply not_elem_of_cons in Hsj as [Hne Hsj].
        rewrite Hafter by done. cbn. by rewrite fn_lookup_insert_ne.
Qed.

(** There is no rollback: when [populate_store] raises for the party of
    rank [i], the call raises the same exception, the stores of the ranks
    before [i] keep the primitives they were given, and the stores of the
    ranks after [i] are untouched. *)
Theorem distribution_stops_at_failure
    op_str sessions g_kwargs kwargs st generator prims i p sess store e :
  _func_providers st !! op_str = Some generator →
  generator g_kwargs = OK (GenList prims) →
  length prims = length sessions →
  NoDup sessions →
  prims !! i = Some p →
  sessions !! i = Some sess →
  populate_store op_str p kwargs (crypto_store st sess) = (store, Raise e) →
  (∀ j pj sj, (j < i)%nat → prims !! j = Some pj → sessions !! j = Some sj →
     (populate_store op_str pj kwargs (crypto_store st sj)).2 = OK ()) →
  ∃ st', generate_primitives op_str sessions g_kwargs (Some kwargs) st
           = (st', Raise e) ∧
    (∀ j pj sj, (j < i)%nat → prims !! j = Some pj → sessions !! j = Some sj →
       crypto_store st' sj
       = (populate_store op_str pj kwargs (crypto_store st sj)).1) ∧
    crypto_store st' sess = store ∧
    (∀ j sj, (i < j)%nat → sessions !! j = Some sj →
       crypto_store st' sj = crypto_store st sj).
Proof.
  intros Hreg Hgen Hlen Hnd Hp Hs Hfail Hok.
  unfold generate_primitives. rewrite Hreg, Hgen.
  unfold _transfer_primitives_to_parties.
  rewrite Hlen, Nat.eqb_refl. cbn [negb].
  set (st1 := if _LOGGING st then _ else st).
  assert (crypto_store st1 = crypto_store st) as Hst1
    by (subst st1; by destruct (_LOGGING st)).
  destruct (populate_all_fails op_str kwargs prims sessions st1 i p sess store e)
    as (st' & Hrun & Hbefore & Hat & Hafter); try done.
  { by rewrite Hst1. }
  { by rewrite Hst1. }
  rewrite Hrun. exists st'. rewrite Hst1 in Hbefore, Hafter.
  split; [done|]. split; [done|]. split; [done|].
  intros j sj Hj Hsj. apply Hafter.
  intros Hin%elem_of_take. destruct Hin as (k & Hk & Hlt).
  assert (k = j) as -> by (by eapply NoDup_lookup). lia.
Qed.

End Dealer.

Arguments GenList {Primitive} primitives.
Arguments GenOther {Primitive} obj.
Arguments _func_providers {Value Primitive Store} s.
Arguments _ops_list {Value Primitive Store} s.
Arguments _LOGGING {Value Primitive Store} s.
Arguments crypto_store {Value Primitive Store} s _.
Arguments primitive_log {Value Primitive Store} s.
Arguments generate_primitives {Value Primitive Store} populate_store
  op_str sessions g_kwargs p_kwargs st.
Arguments generate_primitives_default {Value Primitive Store} populate_store
  op_str sessions st.
Arguments start_logging {Value Primitive Store} st.
Arguments stop_logging {Value Primitive Store} dumps_kwargs generate_file st.
Arguments run_calls {Value Primitive Store} populate_store op_str calls st.
Arguments c_p_kwargs {Value} c.

(** *** A concrete dealer *)

(** Kwargs values are integers; a store is the list of what was handed to
    it, tagged; every dict of integers is serialisable. *)
Definition ledger_populate (op_str : string) (p : Z) (kwargs : gmap string Z)
    (store : list (string * Z)) : list (string * Z) * result unit :=
  (store ++ [(op_str, p)], OK ()).

Definition ledger_dumps (kwargs : gmap string Z) : option json :=
  Some (JObj (prod_map id JNum <$> map_to_list kwargs)).

Definition pair_generator (g_kwargs : gmap string Z) : result (gen_output Z) :=
  OK (GenList [7; 8]).

Definition fresh_dealer : state Z Z (list (string * Z)) :=
  {| _func_providers := {[ "mul"%string := pair_generator ]};
     _ops_list := [];
     _LOGGING := false;
     crypto_store := λ _, [];
     primitive_log := None |}.

Definition mul_calls : list (call Z) :=
  [ {| c_sessions := [0; 1]%nat; c_g_kwargs := ∅;
       c_p_kwargs := Some {[ "a_shape"%string := 2 ]} |};
    {| c_sessions := [0; 1; 2]%nat; c_g_kwargs := ∅; c_p_kwargs := None |} ].

Example unregistered_tag :
  (generate_primitives ledger_populate "conv2d" [0; 1]%nat ∅ None fresh_dealer).2
  = Raise (ValueError (NotRegistered "conv2d")).
Proof. reflexivity. Qed.

Lemma generate_primitives_skip_or_mismatch_witness :
  (∃ st', generate_primitives ledger_populate "mul" [0; 1; 2]%nat ∅ None fresh_dealer
            = (st', OK (GenList [7; 8])) ∧
          crypto_store st' = crypto_store fresh_dealer) ∧
  (∀ kwargs prims,
     GenList [7; 8] = GenList prims →
     length prims ≠ length [0; 1; 2]%nat →
     ∃ st', generate_primitives ledger_populate "mul" [0; 1; 2]%nat ∅
              (Some kwargs) fresh_dealer
              = (st', Raise (ValueError
                               (CountMismatch (length prims) (length [0; 1; 2]%nat)))) ∧
            crypto_store st' = crypto_store fresh_dealer).
Proof.
  apply (generate_primitives_skip_or_mismatch Z Z (list (string * Z))
           ledger_populate "mul" [0; 1; 2]%nat ∅ fresh_dealer pair_generator);
    reflexivity.
Defined.

Lemma default_kwargs_distribute_witness :
  (∃ st', generate_primitives_default ledger_populate "mul" [4; 5]%nat fresh_dealer
            = (st', OK (GenList [7; 8])) ∧
     ∀ i p sess, [7; 8] !! i = Some p → [4; 5]%nat !! i = Some sess →
       crypto_store st' sess
       = (ledger_populate "mul" p ∅ (crypto_store fresh_dealer sess)).1) ∧
  (∃ st', generate_primitives ledger_populate "mul" [4; 5]%nat ∅ None fresh_dealer
            = (st', OK (GenList [7; 8])) ∧
          crypto_store st' = crypto_store fresh_dealer).
Proof.
  apply (default_kwargs_distribute Z Z (list (string * Z))
           ledger_populate "mul" [4; 5]%nat fresh_dealer pair_generator [7; 8]).
  - reflexivity.
  - reflexivity.
  - reflexivity.
  - apply NoDup_cons_2; [|apply NoDup_cons_2; [|apply NoDup_nil_2]];
      rewrite list_elem_of_In; cbn; lia.
  - repeat constructor.
Defined.

(** The stores after the default call, spelled out. *)
Example default_call_stores :
  let st' := (generate_primitives_default ledger_populate "mul" [4; 5]%nat
                fresh_dealer).1 in
  crypto_store st' 4%nat = [("mul"%string, 7)] ∧
  crypto_store st' 5%nat = [("mul"%string, 8)] ∧
  crypto_store st' 6%nat = [].
Proof. repeat split. Qed.

Lemma logging_session_witness :
  let st1 := run_calls ledger_populate "mul" mul_calls (start_logging fresh_dealer).1 in
  ∃ log_json st2,
    stop_logging ledger_dumps true st1 = (st2, OK log_json) ∧
    entries_under "mul" log_json
      = [JObj [("a_shape"%string, JNum 2)]; JNull] ∧
    length [JObj [("a_shape"%string, JNum 2)]; JNull] = length mul_calls ∧
    _ops_list st2 = [] ∧
    _LOGGING st2 = false ∧
    primitive_log st2 = if true then Some log_json else primitive_log fresh_dealer.
Proof.
  apply (logging_session Z Z (list (string * Z)) ledger_populate ledger_dumps
           "mul" pair_generator mul_calls true fresh_dealer []
           [JObj [("a_shape"%string, JNum 2)]; JNull]).
  - reflexivity.
  - reflexivity.
  - reflexivity.
  - repeat constructor; by eexists.
  - reflexivity.
Defined.

(** The second call above fails to distribute (two primitives, three
    sessions) and is logged all the same. *)
Example mismatched_call_is_logged :
  let st1 := (start_logging fresh_dealer).1 in
  let '(st2, r) := generate_primitives ledger_populate "mul" [0; 1; 2]%nat ∅
                     (Some ∅) st1 in
  r = Raise (ValueError (CountMismatch 2 3)) ∧
  _ops_list st2 = [("mul"%string, [Some ∅])].
Proof. split; reflexivity. Qed.

(** [start_logging] keeps what the log already holds: a second
    [start_logging] without a [stop_logging] between does not reset the
    count. *)
Example start_logging_keeps_log :
  let st1 := run_calls ledger_populate "mul" mul_calls (start_logging fresh_dealer).1 in
  let st2 := run_calls ledger_populate "mul" mul_calls (start_logging st1).1 in
  length (entries_under "mul"
            match (stop_logging ledger_dumps false st2).2 with
            | OK j => j
            | Raise _ => JNull
            end) = 4%nat.
Proof. reflexivity. Qed.

(** A dealer whose [json.dumps] accepts the empty dict only: with
    anything else in the log, [stop_logging] raises after switching logging
    off and before clearing the log. *)
Definition picky_dumps (kwargs : gmap string Z) : option json :=
  if decide (kwargs = ∅) then Some (JObj []) else None.

Example stop_logging_unserialisable :
  let st1 := run_calls ledger_populate "mul" mul_calls (start_logging fresh_dealer).1 in
  let '(st2, r) := stop_logging picky_dumps false st1 in
  r = Raise TypeError ∧ _LOGGING st2 = false ∧ length (_ops_list st2) = 1%nat.
Proof. repeat split. Qed.

(** A dealer whose generator for ["mul"] raises. *)
Definition refusing_generator (g_kwargs : gmap string Z) : result (gen_output Z) :=
  Raise (External 6).

Definition refusing_dealer : state Z Z (list (string * Z)) :=
  {| _func_providers := {[ "mul"%string := refusing_generator ]};
     _ops_list := [];
     _LOGGING := false;
     crypto_store := λ _, [];
     primitive_log := None |}.

(** C4 as worded does not hold of every run of [start_logging], two calls
    for the registered tag ["mul"], [stop_logging].  When one call was logged
    before this [start_logging] and no [stop_logging] came between, the log
    returned has three entries under ["mul"]: line 100 sets the flag and
    clears nothing.  When [json.dumps] raises on a logged entry,
    [stop_logging] raises at line 113 and the in-memory log keeps its entry:
    line 114 is not reached.  When the generator raises, the calls log
    nothing: line 51 comes before line 54. *)
Lemma logging_session_not_as_worded :
  (let earlier := [ {| c_sessions := [0; 1]%nat; c_g_kwargs := ∅;
                       c_p_kwargs := Some ∅ |} ] in
   let st0 := run_calls ledger_populate "mul" earlier (start_logging fresh_dealer).1 in
   let st1 := run_calls ledger_populate "mul" mul_calls (start_logging st0).1 in
   ∃ log_json st2,
     stop_logging ledger_dumps false st1 = (st2, OK log_json) ∧
     length (entries_under "mul" log_json) = 3%nat ∧
     length mul_calls = 2%nat) ∧
  (let st1 := run_calls ledger_populate "mul" mul_calls (start_logging fresh_dealer).1 in
   ∃ st2,
     stop_logging picky_dumps false st1 = (st2, Raise TypeError) ∧
     _ops_list st2
       = [("mul"%string, [Some {[ "a_shape"%string := 2 ]}; None])]) ∧
  (let st1 := run_calls ledger_populate "mul" mul_calls
                (start_logging refusing_dealer).1 in
   ∃ log_json st2,
     stop_logging ledger_dumps false st1 = (st2, OK log_json) ∧
     length (entries_under "mul" log_json) = 0%nat ∧
     length mul_calls = 2%nat).
Proof.
  split; [|split].
  - eexists _, _. split; [reflexivity|]. split; reflexivity.
  - eexists. split; reflexivity.
  - eexists _, _. split; [reflexivity|]. split; reflexivity.
Qed.

Arguments CmdStart {Value}.
Arguments CmdStop {Value} generate_file.
Arguments CmdGenerate {Value} op_str c.
Arguments exec {Value Primitive Store} populate_store dumps_kwargs st cmd.
Arguments idle_log_empty {Value Primitive Store} st.

(** The dealer in the middle of a logging session. *)
Definition busy_dealer : state Z Z (list (string * Z)) :=
  run_calls ledger_populate "matmul" []
    (run_calls ledger_populate "mul" mul_calls (start_logging fresh_dealer).1).

Lemma generate_primitives_logs_under_tag_witness :
  let st' := (generate_primitives ledger_populate "mul" [0; 1]%nat ∅ (Some ∅)
                busy_dealer).1 in
  assoc "mul" (_ops_list st')
    = Some (default [] (assoc "mul" (_ops_list busy_dealer)) ++ [Some ∅]) ∧
  ∀ tag, tag ≠ "mul"%string →
    assoc tag (_ops_list st') = assoc tag (_ops_list busy_dealer).
Proof.
  apply (generate_primitives_logs_under_tag Z Z (list (string * Z))
           ledger_populate "mul" [0; 1]%nat ∅ (Some ∅) busy_dealer
           pair_generator (GenList [7; 8])); reflexivity.
Defined.

Lemma idle_log_stays_empty_witness :
  idle_log_empty
    (foldl (exec ledger_populate ledger_dumps) fresh_dealer
       [ CmdStart;
         CmdGenerate "mul" {| c_sessions := [0; 1]%nat; c_g_kwargs := ∅;
                              c_p_kwargs := Some ∅ |};
         CmdGenerate "conv2d" {| c_sessions := [0]%nat; c_g_kwargs := ∅;
                                 c_p_kwargs := None |};
         CmdStop true;
         CmdGenerate "mul" {| c_sessions := [0]%nat; c_g_kwargs := ∅;
                              c_p_kwargs := Some ∅ |} ]).
Proof.
  apply (idle_log_stays_empty Z Z (list (string * Z)) ledger_populate ledger_dumps).
  - intros kwargs. by eexists.
  - intros _. reflexivity.
Defined.

Lemma stop_logging_again_witness :
  ∃ st'',
    stop_logging ledger_dumps true (stop_logging ledger_dumps false busy_dealer).1
      = (st'', OK (JObj [])) ∧
    _ops_list st'' = [] ∧
    primitive_log st''
      = if true then Some (JObj [])
        else primitive_log (stop_logging ledger_dumps false busy_dealer).1.
Proof.
  apply (stop_logging_again Z Z (list (string * Z)) ledger_dumps false true
           busy_dealer (stop_logging ledger_dumps false busy_dealer).1
           (JObj [("mul"%string, JArr [JObj [("a_shape"%string, JNum 2)]; JNull])])).
  reflexivity.
Defined.

Lemma generate_primitives_returned_witness :
  ∃ generator prims,
    _func_providers fresh_dealer !! "mul"%string = Some generator ∧
    generator ∅ = OK (GenList [7; 8]) ∧
    GenList [7; 8] = GenList prims ∧
    length prims = length [4; 5]%nat.
Proof.
  apply (generate_primitives_returned Z Z (list (string * Z)) ledger_populate
           "mul" [4; 5]%nat ∅ ∅ fresh_dealer
           (generate_primitives ledger_populate "mul" [4; 5]%nat ∅ (Some ∅)
              fresh_dealer).1).
  reflexivity.
Defined.

(** A store that refuses the primitive 8. *)
Definition refusing_populate (op_str : string) (p : Z) (kwargs : gmap string Z)
    (store : list (string * Z)) : list (string * Z) * result unit :=
  if p =? 8 then (store, Raise (External 1))
  else (store ++ [(op_str, p)], OK ()).

Definition triple_generator (g_kwargs : gmap string Z) : result (gen_output Z) :=
  OK (GenList [7; 8; 9]).

Definition triple_dealer : state Z Z (list (string * Z)) :=
  {| _func_providers := {[ "mul"%string := triple_generator ]};
     _ops_list := [];
     _LOGGING := false;
     crypto_store := λ _, [];
     primitive_log := None |}.

Lemma distribution_stops_at_failure_witness :
  ∃ st', generate_primitives refusing_populate "mul" [4; 5; 6]%nat ∅ (Some ∅)
           triple_dealer
           = (st', Raise (External 1)) ∧
    (∀ j pj sj, (j < 1)%nat → [7; 8; 9] !! j = Some pj →
       [4; 5; 6]%nat !! j = Some sj →
       crypto_store st' sj
       = (refusing_populate "mul" pj ∅ (crypto_store triple_dealer sj)).1) ∧
    crypto_store st' 5%nat = [] ∧
    (∀ j sj, (1 < j)%nat → [4; 5; 6]%nat !! j = Some sj →
       crypto_store st' sj = crypto_store triple_dealer sj).
Proof.
  apply (distribution_stops_at_failure Z Z (list (string * Z)) refusing_populate
           "mul" [4; 5; 6]%nat ∅ ∅ triple_dealer
           triple_generator [7; 8; 9] 1 8 5%nat [] (External 1)).
  - reflexivity.
  - reflexivity.
  - reflexivity.
  - repeat (apply NoDup_cons_2; [rewrite list_elem_of_In; cbn; lia|]).
    apply NoDup_nil_2.
  - reflexivity.
  - reflexivity.
  - reflexivity.
  - intros [|j] pj sj Hj Hpj Hsj; [|lia]. cbn in Hpj. by injection Hpj as <-.
Defined.

End Provider.

(** ** Shape inference: [MPCTensor._get_shape] *)

#[global] Instance result_fmap : FMap result := fun A B f m =>
  match m with
  | OK a => OK (f a)
  | Raise e => Raise e
  end.

Module Shape.

(** The shape of [torch.empty(size=x) <op> torch.empty(size=y)], read off
    PyTorch's broadcasting and [matmul] rules; PyTorch raises
    [RuntimeError] on shapes that do not fit. *)

(** Broadcasting, on the dimensions from the last to the first. *)
Fixpoint broadcast_rev (a b : list nat) : result (list nat) :=
  match a, b with
  | [], _ => OK b
  | _, [] => OK a
  | x :: a', y :: b' =>
      if (x =? y)%nat then (x ::.) <$> broadcast_rev a' b'
      else if (x =? 1)%nat then (y ::.) <$> broadcast_rev a' b'
      else if (y =? 1)%nat then (x ::.) <$> broadcast_rev a' b'
      else Raise (RuntimeError "The size of tensor a must match the size of tensor b")
  end.

Definition broadcast (a b : list nat) : result (list nat) :=
  reverse <$> broadcast_rev (reverse a) (reverse b).

(** [matmul]: a 1-D left operand is a row, a 1-D right operand a column
    (that dimension is dropped again); the last two dimensions multiply
    as matrices and the leading ones broadcast. *)
Definition matmul_shape (a b : list nat) : result (list nat) :=
  match a, b with
  | [], _ | _, [] =>
      Raise (RuntimeError "both arguments to matmul need to be at least 1D")
  | _, _ =>
      let a2 := if (length a =? 1)%nat then 1%nat :: a else a in
      let b2 := if (length b =? 1)%nat then b ++ [1%nat] else b in
      let batch_a := take (length a2 - 2) a2 in
      let batch_b := take (length b2 - 2) b2 in
      match drop (length a2 - 2) a2, drop (length b2 - 2) b2 with
      | [n; m], [m'; p] =>
          if (m =? m')%nat then
            batch ← broadcast batch_a batch_b;
            OK (batch ++ (if (length a =? 1)%nat then [] else [n])
                      ++ (if (length b =? 1)%nat then [] else [p]))
          else Raise (RuntimeError "mat1 and mat2 shapes cannot be multiplied")
      | _, _ => Raise (RuntimeError "both arguments to matmul need to be at least 1D")
      end
  end.

Section Inference.

(** The shape rule of [torch.conv2d], with its keyword arguments. *)
Variable conv2d_shape : list nat → list nat → gmap string Z → result (list nat).

(** The functions of the [operator] module the class reaches by name; they
    take no keyword arguments. *)
Definition binary (f : list nat → list nat → result (list nat))
    (x y : list nat) (kwargs_ : gmap string Z) : result (list nat) :=
  if decide (kwargs_ = ∅) then f x y else Raise TypeError.

Definition getattr_operator (op_str : string)
  : result (list nat → list nat → gmap string Z → result (list nat)) :=
  if String.eqb op_str "add" then OK (binary broadcast)
  else if String.eqb op_str "sub" then OK (binary broadcast)
  else if String.eqb op_str "mul" then OK (binary broadcast)
  else if String.eqb op_str "truediv" then OK (binary broadcast)
  else if String.eqb op_str "matmul" then OK (binary matmul_shape)
  else Raise (AttributeError op_str).

(** Lines 613-631, without the cache. *)
Definition _get_shape (op_str : string) (x_shape y_shape : option (list nat))
    (kwargs_ : gmap string Z) : result (list nat) :=
  match x_shape, y_shape with
  | Some x, Some y =>
      op ← (if String.eqb op_str "conv2d" then OK conv2d_shape
            else getattr_operator op_str);
      op x y kwargs_
  | _, _ => Raise (ValueError ShapesNone)
  end.

(** [lru_cache(maxsize=128)]: the calls that returned, most recent first. *)
Definition cache_key : Type :=
  string * option (list nat) * option (list nat) * gmap string Z.

Definition compute (key : cache_key) : result (list nat) :=
  let '(op_str, x_shape, y_shape, kwargs_) := key in
  _get_shape op_str x_shape y_shape kwargs_.

Fixpoint cache_get (key : cache_key) (cache : list (cache_key * list nat))
  : option (list nat) :=
  match cache with
  | [] => None
  | (k, v) :: cache' => if decide (k = key) then Some v else cache_get key cache'
  end.

Definition cache_drop (key : cache_key) (cache : list (cache_key * list nat))
  : list (cache_key * list nat) :=
  filter (λ e, e.1 ≠ key) cache.

Definition _get_shape_cached (key : cache_key) (cache : list (cache_key * list nat))
  : list (cache_key * list nat) * result (list nat) :=
  match cache_get key cache with
  | Some v => ((key, v) :: cache_drop key cache, OK v)
  | None =>
      match compute key with
      | OK v => (take 128 ((key, v) :: cache), OK v)
      | Raise e => (cache, Raise e)
      end
  end.

(** Every cached entry is what the function returns on its key. *)
Definition cache_sound (cache : list (cache_key * list nat)) : Prop :=
  Forall (λ e, compute e.1 = OK e.2) cache.


Lemma cache_get_sound key cache v :
  cache_sound cache → cache_get key cache = Some v → compute key = OK v.
Proof.
  induction 1 as [|[k w] cache Hk _ IH]; cbn; [done|].
  destruct (decide (k = key)) as [<-|]; [|done]. cbn in Hk. congruence.
Qed.

Lemma cache_drop_sound key cache : cache_sound cache → cache_sound (cache_drop key cache).
Proof.
  unfold cache_sound, cache_drop.
  induction 1 as [|e cache He _ IH]; [constructor|].
  rewrite filter_cons. destruct (decide _); [by constructor|done].
Qed.

(** The cache is transparent: a call through it returns or raises what
    the function does, and keeps the cache sound and within its size. *)
Lemma _get_shape_cached_transparent key cache :
  cache_sound cache →
  (_get_shape_cached key cache).2 = compute key ∧
  cache_sound (_get_shape_cached key cache).1.
Proof.
  intros Hsound. unfold _get_shape_cached.
  destruct (cache_get key cache) as [v|] eqn:Hget.
  - pose proof (cache_get_sound key cache v Hsound Hget) as Hv. cbn.
    split; [done|]. constructor; [done|by apply cache_drop_sound].
  - destruct (compute key) as [v|e] eqn:Hv; [|done].
    split; [done|]. cbn [fst]. apply Forall_take. by constructor.
Qed.

Lemma matmul_2d n m m' p :
  matmul_shape [n; m] [m'; p]
  = if (m =? m')%nat then OK [n; p]
    else Raise (RuntimeError "mat1 and mat2 shapes cannot be multiplied").
Proof. cbn. by destruct (m =? m')%nat. Qed.

(** C8.  [_get_shape] is a function of the tag, the two shapes and the
    keyword arguments, also through its cache: it gives [(3,5)] for
    ["matmul"] on [(3,4)] and [(4,5)], [(2,3)] for ["add"] on [(2,3)] twice,
    raises on matrices whose inner dimensions differ, and raises the
    [ValueError] when either shape is [None]. *)
Theorem get_shape_inference :
  _get_shape "matmul" (Some [3; 4]%nat) (Some [4; 5]%nat) ∅ = OK [3; 5]%nat ∧
  _get_shape "add" (Some [2; 3]%nat) (Some [2; 3]%nat) ∅ = OK [2; 3]%nat ∧
  (∀ n m m' p, m ≠ m' →
     _get_shape "matmul" (Some [n; m]) (Some [m'; p]) ∅
     = Raise (RuntimeError "mat1 and mat2 shapes cannot be multiplied")) ∧
  (∀ op_str x_shape y_shape kwargs_,
     x_shape = None ∨ y_shape = None →
     _get_shape op_str x_shape y_shape kwargs_ = Raise (ValueError ShapesNone)) ∧
  (∀ op_str x_shape y_shape kwargs_ cache,
     cache_sound cache →
     let '(cache', r) := _get_shape_cached (op_str, x_shape, y_shape, kwargs_) cache in
     r = _get_shape op_str x_shape y_shape kwargs_ ∧ cache_sound cache').
Proof.
  split; [done|]. split; [done|]. split; [|split].
  - intros n m m' p Hm. unfold _get_shape. cbn -[matmul_shape].
    unfold binary. rewrite decide_True by done. rewrite matmul_2d.
    apply Nat.eqb_neq in Hm. by rewrite Hm.
  - intros op_str x_shape y_shape kwargs_ [-> | ->]; [done|].
    by destruct x_shape.
  - intros op_str x_shape y_shape kwargs_ cache Hsound.
    pose proof (_get_shape_cached_transparent
                  (op_str, x_shape, y_shape, kwargs_) cache Hsound) as H.
    by destruct (_get_shape_cached _ cache).
Qed.

End Inference.

Lemma get_shape_inference_witness :
  let conv := λ _ _ _, Raise (External 0) in
  _get_shape conv "matmul" (Some [3; 4]%nat) (Some [5; 6]%nat) ∅
    = Raise (RuntimeError "mat1 and mat2 shapes cannot be multiplied") ∧
  _get_shape conv "add" None (Some [2; 3]%nat) ∅ = Raise (ValueError ShapesNone) ∧
  (_get_shape_cached conv ("add"%string, Some [2; 3]%nat, Some [2; 3]%nat, ∅) []).2
    = OK [2; 3]%nat.
Proof.
  intros conv.
  destruct (get_shape_inference conv) as (_ & _ & Hmis & Hnone & Hcache).
  split; [apply Hmis; lia|]. split; [apply Hnone; by left|].
  specialize (Hcache "add"%string (Some [2; 3]%nat) (Some [2; 3]%nat) ∅ []).
  destruct (_get_shape_cached conv _ []) as [cache' r].
  destruct Hcache as [-> _]; [constructor|reflexivity].
Defined.

(** More shapes under these rules. *)
Example broadcast_scalar_operand conv :
  _get_shape conv "mul" (Some [2; 3]%nat) (Some [1]%nat) ∅ = OK [2; 3]%nat.
Proof. reflexivity. Qed.

Example matmul_batched conv :
  _get_shape conv "matmul" (Some [7; 1; 3; 4]%nat) (Some [2; 4; 5]%nat) ∅
  = OK [7; 2; 3; 5]%nat.
Proof. reflexivity. Qed.

Example matmul_vector conv :
  _get_shape conv "matmul" (Some [3; 4]%nat) (Some [4]%nat) ∅ = OK [3]%nat.
Proof. reflexivity. Qed.

Example add_mismatch conv :
  _get_shape conv "add" (Some [2; 3]%nat) (Some [2; 4]%nat) ∅
  = Raise (RuntimeError "The size of tensor a must match the size of tensor b").
Proof. reflexivity. Qed.

End Shape.

(** ** The orchestrator: operator dispatch of [MPCTensor] *)

Module Orchestrator.

(** [op_str in {...}] *)
Definition op_in (ops : list string) (op_str : string) : bool :=
  existsb (String.eqb op_str) ops.

Record Session := {
  uuid : Z;
  nr_parties : Z;
  encoder_base : Z;
  encoder_precision : Z;
  session_ptrs : list nat;
  parties : list nat
}.

(** A public operand: a Python number or a plain tensor. *)
Inductive public :=
| PubInt (z : Z)
| PubFloat (q : Q)
| PubTensor (shape : list nat) (data : list Q).

Section Parties.

Variable conv2d_shape : list nat → list nat → gmap string Z → result (list nat).

(** A share as the orchestrator holds it: a [ShareTensor] of its own or a
    pointer to one at a party. *)
Variable Handle : Type.
Variable ispointer : Handle → bool.

Record MPCTensor := {
  share_ptrs : list Handle;
  session : Session;
  shape : option (list nat)
}.

Definition set_shape (shp : option (list nat)) (t : MPCTensor) : MPCTensor :=
  {| share_ptrs := share_ptrs t; session := session t; shape := shp |}.

(** The right operand of an operator. *)
Inductive operand :=
| Private (y : MPCTensor)
| Public (y : public).

(** Everything outside the orchestrating process: the objects the parties
    hold, their primitive stores, the messages in flight. *)
Variable World : Type.

(** Code that calls out: it changes the world and returns or raises. *)
Definition M (A : Type) : Type := World → World * result A.

#[global] Instance M_ret : MRet M := λ A a w, (w, OK a).
#[global] Instance M_bind : MBind M := λ A B f m w,
  match m w with
  | (w', OK a) => f a w'
  | (w', Raise e) => (w', Raise e)
  end.

Definition raise {A} (e : exn) : M A := λ w, (w, Raise e).
Definition lift {A} (r : result A) : M A := λ w, (w, r).

Fixpoint for_eachM {A B} (f : A → M B) (l : list A) : M (list B) :=
  match l with
  | [] => mret []
  | a :: l' => b ← f a; bs ← for_eachM f l'; mret (b :: bs)
  end.

(** The collaborators, none of them in these sources: the operators of a
    share or share pointer with a public value and with another share,
    [send], and [mul_master] and [public_divide] of [sympc.protocol.spdz]. *)
Variable share_op : string → Handle → public → M Handle.
Variable share_op2 : string → Handle → Handle → M Handle.
Variable send : Handle → nat → M Handle.
Variable mul_master : MPCTensor → MPCTensor → string → gmap string Z → M MPCTensor.
Variable public_divide : MPCTensor → public → M MPCTensor.

(** Lines 139-153. *)
Definition distribute_shares (shares : list Handle) (parties : list nat)
  : M (list Handle) :=
  for_eachM (λ sp, send sp.1 sp.2) (zip shares parties).

(** Lines 90-136 for [MPCTensor(shares=..., shape=..., session=...)], the
    constructor as the operators call it: a session, no secret. *)
Definition MPCTensor_init (sess : Session) (shp : option (list nat))
    (shares : list Handle) : M MPCTensor :=
  if (length (session_ptrs sess) =? 0)%nat then raise (ValueError SetupNotCalled)
  else
    first ← lift (index shares 0);
    shares' ← (if negb (ispointer first)
               then distribute_shares shares (parties sess)
               else mret shares);
    mret {| share_ptrs := shares'; session := sess; shape := shp |}.

(** Lines 546-580. *)
Definition __apply_private_op (self y : MPCTensor) (op_str : string)
    (kwargs_ : gmap string Z) : M MPCTensor :=
  if negb (uuid (session y) =? uuid (session self)) then
    raise (ValueError (NeedSameSession (uuid (session self)) (uuid (session y))))
  else if op_in ["mul"; "matmul"; "conv2d"] op_str then
    result ← mul_master self y op_str kwargs_;
    shp ← lift (Shape._get_shape conv2d_shape op_str (shape self) (shape y) ∅);
    mret (set_shape (Some shp) result)
  else if op_in ["sub"; "add"] op_str then
    shares ← for_eachM (λ st, share_op2 op_str st.1 st.2)
                       (zip (share_ptrs self) (share_ptrs y));
    MPCTensor_init (session self) (shape self) shares
  else raise (UnboundLocalError "result").

(** Lines 582-609.  [getattr(operator, op_str)] comes first, and the
    [operator] module has no [conv2d]. *)
Definition __apply_public_op (self : MPCTensor) (y : public) (op_str : string)
    (kwargs_ : gmap string Z) : M MPCTensor :=
  _ ← lift (Shape.getattr_operator op_str);
  shares ← (if op_in ["mul"; "matmul"] op_str then
              for_eachM (λ share, share_op op_str share y) (share_ptrs self)
            else if op_in ["add"; "sub"] op_str then
              let shares := share_ptrs self in
              first ← lift (index shares 0);
              first' ← share_op op_str first y;
              mret (<[0%nat := first']> shares)
            else raise (ValueError (OpNotSupported op_str)));
  MPCTensor_init (session self) None shares.

(** Lines 492-511. *)
Definition div (self : MPCTensor) (y : operand) : M MPCTensor :=
  match y with
  | Private _ => raise (NotImplementedError "Not implemented for MPCTensor")
  | Public v => public_divide self v
  end.

Definition is_private (y : operand) : bool :=
  match y with
  | Private _ => true
  | Public _ => false
  end.

(** Lines 651-663: dispatch on the operand, then the shape of the result. *)
Definition apply_and_shape (self : MPCTensor) (y : operand) (op_str : string)
    (kwargs_ : gmap string Z) : M MPCTensor :=
  result ← match y with
           | Private y' => __apply_private_op self y' op_str kwargs_
           | Public v => __apply_public_op self v op_str kwargs_
           end;
  let y_shape := match y with
                 | Public (PubInt _) | Public (PubFloat _) => Some [1%nat]
                 | Public (PubTensor shp _) => Some shp
                 | Private y' => shape y'
                 end in
  shp ← lift (Shape._get_shape conv2d_shape op_str (shape self) y_shape kwargs_);
  mret (set_shape (Some shp) result).

Definition scale (sess : Session) : Z := encoder_base sess ^ encoder_precision sess.

(** Lines 633-675. *)
Definition __apply_op (self : MPCTensor) (y : operand) (op_str : string)
    (kwargs_ : gmap string Z) : M MPCTensor :=
  result ← apply_and_shape self y op_str kwargs_;
  if op_in ["mul"; "matmul"; "conv2d"] op_str
     && negb (is_private y && (nr_parties (session self) =? 2))
  then div result (Public (PubInt (scale (session self))))
  else mret result.

Definition mul (self : MPCTensor) (y : operand) : M MPCTensor :=
  __apply_op self y "mul" ∅.

(** [result * base] in [pow]: [result] is the integer 1 until the first
    product, and an integer on the left defers to [base.__rmul__], which is
    [mul]. *)
Definition result_times_base (result : operand) (base : MPCTensor) : M operand :=
  match result with
  | Public v => product ← mul base (Public v); mret (Private product)
  | Private r => product ← mul r (Private base); mret (Private product)
  end.

(** Lines 534-542: the loop, on the binary digits of a positive power. *)
Fixpoint pow_loop (power : positive) (result : operand) (base : MPCTensor)
  : M operand :=
  match power with
  | xH =>
      result' ← result_times_base result base;
      _ ← mul base (Private base);
      mret result'
  | xO power' =>
      base' ← mul base (Private base);
      pow_loop power' result base'
  | xI power' =>
      result' ← result_times_base result base;
      base' ← mul base (Private base);
      pow_loop power' result' base'
  end.

(** Lines 513-544. *)
Definition pow (self : MPCTensor) (power : Z) : M operand :=
  match power with
  | Zneg _ => raise (RuntimeError "Negative integer powers are not allowed.")
  | Z0 => mret (Public (PubInt 1))
  | Zpos p => pow_loop p (Public (PubInt 1)) self
  end.


Definition add (self : MPCTensor) (y : operand) : M MPCTensor :=
  __apply_op self y "add" ∅.
Definition sub (self : MPCTensor) (y : operand) : M MPCTensor :=
  __apply_op self y "sub" ∅.
Definition matmul (self : MPCTensor) (y : operand) : M MPCTensor :=
  __apply_op self y "matmul" ∅.

(** Lines 426-463 without a bias: the four remaining keyword arguments go
    to [__apply_op]. *)
Definition conv2d (self : MPCTensor) (weight : operand)
    (stride padding dilation groups : Z) : M MPCTensor :=
  __apply_op self weight "conv2d"
    (<["stride" := stride]> (<["padding" := padding]>
       (<["dilation" := dilation]> {["groups" := groups]}))).

(** The shape a public operand has for [_get_shape]. *)
Definition public_shape (y : public) : list nat :=
  match y with
  | PubInt _ | PubFloat _ => [1%nat]
  | PubTensor shp _ => shp
  end.

Ltac run := unfold mbind, M_bind, mret, M_ret, lift, raise.

(** *** Session check *)

(** C9.  When the session identifiers of the two operands differ,
    [__apply_private_op] raises the [ValueError] for every operation tag, and
    so does [__apply_op] on a private operand; the world is as it was: no
    share was combined, no primitive requested. *)
Theorem session_mismatch_raises self y op_str kwargs_ w :
  uuid (session y) ≠ uuid (session self) →
  __apply_private_op self y op_str kwargs_ w
    = (w, Raise (ValueError (NeedSameSession (uuid (session self))
                                             (uuid (session y))))) ∧
  __apply_op self (Private y) op_str kwargs_ w
    = (w, Raise (ValueError (NeedSameSession (uuid (session self))
                                             (uuid (session y))))).
Proof.
  intros Hne. apply Z.eqb_neq in Hne.
  assert (__apply_private_op self y op_str kwargs_ w
          = (w, Raise (ValueError (NeedSameSession (uuid (session self))
                                                   (uuid (session y)))))) as Hpriv.
  { unfold __apply_private_op. by rewrite Hne. }
  split; [done|].
  unfold __apply_op, apply_and_shape. run. by rewrite Hpriv.
Qed.

(** *** Public addition and subtraction *)

Lemma getattr_operator_add_sub op_str :
  op_str = "add"%string ∨ op_str = "sub"%string →
  ∃ f, Shape.getattr_operator op_str = OK f.
Proof. intros [-> | ->]; by eexists. Qed.

Lemma MPCTensor_init_pointers sess shp first rest w :
  session_ptrs sess ≠ [] →
  ispointer first = true →
  MPCTensor_init sess shp (first :: rest) w
  = (w, OK {| share_ptrs := first :: rest; session := sess; shape := shp |}).
Proof.
  intros Hptrs Hfirst. unfold MPCTensor_init.
  destruct (session_ptrs sess); [done|]. cbn. run. cbn. by rewrite Hfirst.
Qed.

(** C6.  Adding or subtracting a public value calls the operator on the
    share of rank 0 only: when that call returns a pointer, the result holds
    it at rank 0 and, at every rank from 1, the very handles of the
    operand; the same goes for [__apply_op], which adds the shape. *)
Theorem public_add_sub_rank0 self y op_str kwargs_ w first rest w' first' :
  op_str = "add"%string ∨ op_str = "sub"%string →
  share_ptrs self = first :: rest →
  session_ptrs (session self) ≠ [] →
  share_op op_str first y w = (w', OK first') →
  ispointer first' = true →
  __apply_public_op self y op_str kwargs_ w
    = (w', OK {| share_ptrs := first' :: rest; session := session self;
                 shape := None |}) ∧
  (∀ shp,
     Shape._get_shape conv2d_shape op_str (shape self)
       (Some (public_shape y)) kwargs_ = OK shp →
     __apply_op self (Public y) op_str kwargs_ w
       = (w', OK {| share_ptrs := first' :: rest; session := session self;
                    shape := Some shp |})).
Proof.
  intros Hop Hshares Hptrs Hcall Hptr.
  assert (__apply_public_op self y op_str kwargs_ w
          = (w', OK {| share_ptrs := first' :: rest; session := session self;
                       shape := None |})) as Hpub.
  { unfold __apply_public_op.
    destruct (getattr_operator_add_sub op_str Hop) as [f Hf]. rewrite Hf.
    replace (op_in ["mul"; "matmul"] op_str) with false
      by (by destruct Hop as [-> | ->]).
    replace (op_in ["add"; "sub"] op_str) with true
      by (by destruct Hop as [-> | ->]).
    rewrite Hshares. run. cbn. rewrite Hcall. cbn.
    by apply MPCTensor_init_pointers. }
  split; [done|]. intros shp Hshp.
  unfold __apply_op, apply_and_shape. run. rewrite Hpub.
  replace (match y with
           | PubInt _ | PubFloat _ => Some [1%nat]
           | PubTensor shp0 _ => Some shp0
           end) with (Some (public_shape y)) by (by destruct y).
  rewrite Hshp.
  replace (op_in ["mul"; "matmul"; "conv2d"] op_str) with false
    by (by destruct Hop as [-> | ->]).
  done.
Qed.

(** *** Rescaling *)

(** C5.  For a [mul], [matmul] or [conv2d] in a session of at least two
    parties, [__apply_op] passes the shaped result to the division by
    [encoder_base ^ encoder_precision] when the right operand is public or
    the session has more than two parties, and returns it undivided when the
    operand is private and the parties are two. *)
Theorem rescale_after_multiplication self y op_str kwargs_ w :
  op_in ["mul"; "matmul"; "conv2d"] op_str = true →
  2 ≤ nr_parties (session self) →
  __apply_op self y op_str kwargs_ w
  = if negb (is_private y) || (2 <? nr_parties (session self))
    then (result ← apply_and_shape self y op_str kwargs_;
          public_divide result
            (PubInt (encoder_base (session self) ^ encoder_precision (session self)))) w
    else apply_and_shape self y op_str kwargs_ w.
Proof.
  intros Hop Hn. unfold __apply_op. rewrite Hop. cbn [andb].
  assert (negb (is_private y && (nr_parties (session self) =? 2))
          = negb (is_private y) || (2 <? nr_parties (session self))) as ->.
  { destruct (is_private y); cbn; [|done].
    destruct (Z.eqb_spec (nr_parties (session self)) 2) as [->|Hne]; [done|].
    symmetry. apply Z.ltb_lt. lia. }
  destruct (negb (is_private y) || (2 <? nr_parties (session self))).
  - done.
  - run. by destruct (apply_and_shape self y op_str kwargs_ w) as [w' [result|e]].
Qed.

(** *** Powers *)

(** C7, the zero exponent.  [pow] with exponent 0 returns the Python
    integer 1 it starts from, not a distributed tensor, and calls nothing. *)
Theorem pow_zero_is_plain_int self w :
  pow self 0 w = (w, OK (Public (PubInt 1))) ∧
  ∀ t, pow self 0 w ≠ (w, OK (Private t)).
Proof. split; [done|]. intros t. cbn. run. congruence. Qed.

Lemma pow_negative self power w :
  power < 0 →
  pow self power w
  = (w, Raise (RuntimeError "Negative integer powers are not allowed.")).
Proof. destruct power; try lia. done. Qed.

(** A positive exponent: when multiplication returns on the tensors of
    the computation and multiplies their values ([value] stands for what a
    tensor reconstructs to, rounding left out), [pow] returns a distributed
    tensor whose value is the power.  The first product is the public
    [base.mul(1)], the others are private. *)
Lemma pow_loop_value (value : MPCTensor → Z) (good : MPCTensor → Prop) :
  (∀ a b w, good a → good b →
     ∃ w' r, mul a (Private b) w = (w', OK r) ∧ good r ∧
             value r = value a * value b) →
  (∀ a w, good a →
     ∃ w' r, mul a (Public (PubInt 1)) w = (w', OK r) ∧ good r ∧
             value r = value a) →
  ∀ power result base w acc,
    good base →
    (result = Public (PubInt 1) ∧ acc = 1) ∨
    (∃ r, result = Private r ∧ good r ∧ acc = value r) →
    ∃ w' r', pow_loop power result base w = (w', OK (Private r')) ∧ good r' ∧
             value r' = acc * value base ^ Z.pos power.
Proof.
  intros Hpriv Hone.
  assert (∀ result base w acc, good base →
            (result = Public (PubInt 1) ∧ acc = 1) ∨
            (∃ r, result = Private r ∧ good r ∧ acc = value r) →
            ∃ w' r', result_times_base result base w = (w', OK (Private r')) ∧
                     good r' ∧ value r' = acc * value base) as Htimes.
  { intros result base w acc Hbase [[-> ->] | (r & -> & Hr & ->)];
      unfold result_times_base; run.
    - destruct (Hone base w Hbase) as (w' & r' & -> & Hr' & Hv).
      exists w', r'. split; [done|]. split; [done|]. lia.
    - destruct (Hpriv r base w Hr Hbase) as (w' & r' & -> & Hr' & Hv).
      by exists w', r'. }
  induction power as [power IH | power IH | ]; intros result base w acc Hbase Hres;
    cbn [pow_loop]; run.
  - destruct (Htimes result base w acc Hbase Hres) as (w1 & r1 & -> & Hr1 & Hv1).
    destruct (Hpriv base base w1 Hbase Hbase) as (w2 & b2 & -> & Hb2 & Hvb).
    destruct (IH (Private r1) b2 w2 (value r1) Hb2) as (w3 & r3 & Hrun & Hr3 & Hv3).
    { right. by exists r1. }
    exists w3, r3. split; [done|]. split; [done|].
    rewrite Hv3, Hv1, Hvb, Pos2Z.inj_xI.
    rewrite Z.pow_add_r, Z.pow_mul_r, Z.pow_1_r by lia.
    replace (value base ^ 2) with (value base * value base) by lia. lia.
  - destruct (Hpriv base base w Hbase Hbase) as (w2 & b2 & -> & Hb2 & Hvb).
    destruct (IH result b2 w2 acc Hb2 Hres) as (w3 & r3 & Hrun & Hr3 & Hv3).
    exists w3, r3. split; [done|]. split; [done|].
    rewrite Hv3, Hvb, Pos2Z.inj_xO, Z.pow_mul_r by lia.
    replace (value base ^ 2) with (value base * value base) by lia. done.
  - destruct (Htimes result base w acc Hbase Hres) as (w1 & r1 & -> & Hr1 & Hv1).
    destruct (Hpriv base base w1 Hbase Hbase) as (w2 & b2 & -> & Hb2 & Hvb).
    exists w2, r1. split; [done|]. split; [done|].
    by rewrite Hv1, Z.pow_1_r.
Qed.

Lemma pow_positive_value (value : MPCTensor → Z) (good : MPCTensor → Prop)
    self power w :
  (∀ a b w, good a → good b →
     ∃ w' r, mul a (Private b) w = (w', OK r) ∧ good r ∧
             value r = value a * value b) →
  (∀ a w, good a →
     ∃ w' r, mul a (Public (PubInt 1)) w = (w', OK r) ∧ good r ∧
             value r = value a) →
  good self →
  0 < power →
  ∃ w' r, pow self power w = (w', OK (Private r)) ∧
          value r = value self ^ power.
Proof.
  intros Hpriv Hone Hself Hpos. destruct power as [|p|p]; try lia.
  destruct (pow_loop_value value good Hpriv Hone p (Public (PubInt 1)) self w 1
              Hself) as (w' & r & Hrun & _ & Hv); [by left|].
  exists w', r. split; [done|]. rewrite Hv. lia.
Qed.

(** *** Further properties of the orchestrator *)


(** A loop whose body returns, step by step: [ws] lists the worlds the
    loop goes through, the one it starts in first and the one it ends in
    last, and the result at each position is what the body returned for the
    element at that position, run in the world the earlier steps left. *)
Lemma for_eachM_trace {A B} (f : A → M B) (l : list A) w :
  (∀ a w, ∃ w' b, f a w = (w', OK b)) →
  ∃ w' bs (ws : list World),
    for_eachM f l w = (w', OK bs) ∧
    length bs = length l ∧
    ws !! 0%nat = Some w ∧ ws !! length l = Some w' ∧
    ∀ i b, bs !! i = Some b →
      ∃ a wi wi',
        l !! i = Some a ∧ ws !! i = Some wi ∧ ws !! S i = Some wi' ∧
        f a wi = (wi', OK b).
Proof.
  intros Hf. revert w. induction l as [|a l IH]; intros w.
  - exists w, [], [w]. cbn. repeat split; try done.
  - destruct (Hf a w) as (w1 & b & Hstep).
    destruct (IH w1) as (w' & bs & ws & Hrun & Hlen & Hfirst & Hlast & Hall).
    exists w', (b :: bs), (w :: ws). cbn [for_eachM]. run.
    rewrite Hstep. unfold mbind, M_bind, mret, M_ret in Hrun. rewrite Hrun.
    split; [done|]. split; [cbn; lia|]. split; [done|]. split; [done|].
    intros [|i] b' Hb'.
    + injection Hb' as <-. by exists a, w, w1.
    + destruct (Hall i b' Hb') as (a' & wi & wi' & Ha' & Hwi & Hwi' & Hrun').
      by exists a', wi, wi'.
Qed.

(** Lines 149-153: shares and parties are paired by rank, in rank order,
    and what has no partner is left out.  When [send] returns, there are as
    many handles as the shorter of the two lists has elements, and the handle
    at rank [i] is what [send] returned for the share at rank [i] and the
    party at rank [i], in the world the sends of the lower ranks left
    ([ws] lists those worlds, from the first to the one returned). *)
Theorem distribute_shares_pairs shares parties w :
  (∀ h p w, ∃ w' r, send h p w = (w', OK r)) →
  ∃ w' ptrs (ws : list World),
    distribute_shares shares parties w = (w', OK ptrs) ∧
    length ptrs = (length shares `min` length parties)%nat ∧
    ws !! 0%nat = Some w ∧ ws !! length ptrs = Some w' ∧
    ∀ i ptr, ptrs !! i = Some ptr →
      ∃ share party wi wi',
        shares !! i = Some share ∧ parties !! i = Some party ∧
        ws !! i = Some wi ∧ ws !! S i = Some wi' ∧
        send share party wi = (wi', OK ptr).
Proof.
  intros Hsend. unfold distribute_shares.
  destruct (for_eachM_trace (λ sp : Handle * nat, send sp.1 sp.2)
              (zip shares parties) w)
    as (w' & ptrs & ws & Hrun & Hlen & Hfirst & Hlast & Hall).
  { intros [h p] w0. apply Hsend. }
  exists w', ptrs, ws. split; [done|].
  split; [rewrite Hlen; apply length_zip_with|].
  split; [done|]. split; [by rewrite Hlen|].
  intros i ptr Hptr.
  destruct (Hall i ptr Hptr) as ([share party] & wi & wi' & Hpair & Hwi & Hwi' & Hstep).
  apply lookup_zip_with_Some in Hpair as (share' & party' & Heq & Hshare & Hparty).
  injection Heq as -> ->.
  by exists share', party', wi, wi'.
Qed.


(** Lines 567-571: the shape is looked at after the protocol has run.  A
    private product of operands of one session, one of them without a shape,
    raises the [ValueError] of [_get_shape] in the world [mul_master] left
    behind: the primitive is spent. *)
Theorem private_mul_unset_shape self y op_str kwargs_ w w' product :
  uuid (session y) = uuid (session self) →
  op_in ["mul"; "matmul"; "conv2d"] op_str = true →
  mul_master self y op_str kwargs_ w = (w', OK product) →
  shape self = None ∨ shape y = None →
  __apply_private_op self y op_str kwargs_ w = (w', Raise (ValueError ShapesNone)) ∧
  __apply_op self (Private y) op_str kwargs_ w = (w', Raise (ValueError ShapesNone)).
Proof.
  intros Huuid Hop Hmul Hnone.
  assert (__apply_private_op self y op_str kwargs_ w
          = (w', Raise (ValueError ShapesNone))) as Hpriv.
  { unfold __apply_private_op. rewrite Huuid, Z.eqb_refl, Hop. cbn [negb].
    run. rewrite Hmul.
    assert (Shape._get_shape conv2d_shape op_str (shape self) (shape y) ∅
            = Raise (ValueError ShapesNone)) as ->; [|done].
    destruct Hnone as [-> | ->]; [done|]. by destruct (shape self). }
  split; [done|]. unfold __apply_op, apply_and_shape. run. by rewrite Hpriv.
Qed.

Lemma broadcast_scalar shp :
  shp ≠ [] → Shape.broadcast shp [1%nat] = OK shp.
Proof.
  intros Hne. unfold Shape.broadcast.
  destruct (reverse shp) as [|x l] eqn:Hrev.
  { apply (f_equal reverse) in Hrev. rewrite reverse_involutive in Hrev. done. }
  assert (Shape.broadcast_rev (x :: l) (reverse [1%nat]) = OK (x :: l)) as ->.
  { cbn. assert (Shape.broadcast_rev l [] = OK l) as -> by (by destruct l).
    destruct (x =? 1)%nat eqn:Hx; [|done].
    apply Nat.eqb_eq in Hx as ->. done. }
  change (OK (reverse (x :: l)) = OK shp).
  by rewrite <- Hrev, reverse_involutive.
Qed.

(** Adding or subtracting a Python number keeps the shape: with the
    conditions of the rank-0 update, the result of [__apply_op] has the
    shape of the operand (which has at least one dimension). *)
Theorem public_number_keeps_shape
    self y op_str w first rest w' first' shp :
  op_str = "add"%string ∨ op_str = "sub"%string →
  (∃ z, y = PubInt z) ∨ (∃ q, y = PubFloat q) →
  share_ptrs self = first :: rest →
  session_ptrs (session self) ≠ [] →
  share_op op_str first y w = (w', OK first') →
  ispointer first' = true →
  shape self = Some shp →
  shp ≠ [] →
  __apply_op self (Public y) op_str ∅ w
  = (w', OK {| share_ptrs := first' :: rest; session := session self;
               shape := Some shp |}).
Proof.
  intros Hop Hy Hshares Hptrs Hcall Hptr Hshape Hne.
  assert (__apply_public_op self y op_str ∅ w
          = (w', OK {| share_ptrs := first' :: rest; session := session self;
                       shape := None |})) as Hpub.
  { unfold __apply_public_op.
    destruct (getattr_operator_add_sub op_str Hop) as [f Hf]. rewrite Hf.
    replace (op_in ["mul"; "matmul"] op_str) with false
      by (by destruct Hop as [-> | ->]).
    replace (op_in ["add"; "sub"] op_str) with true
      by (by destruct Hop as [-> | ->]).
    rewrite Hshares. run. cbn. rewrite Hcall. cbn.
    by apply MPCTensor_init_pointers. }
  unfold __apply_op, apply_and_shape. run. rewrite Hpub, Hshape.
  assert (Shape._get_shape conv2d_shape op_str (Some shp)
            match y with
            | PubInt _ | PubFloat _ => Some [1%nat]
            | PubTensor shp0 _ => Some shp0
            end ∅ = OK shp) as ->.
  { replace (match y with
             | PubInt _ | PubFloat _ => Some [1%nat]
             | PubTensor shp0 _ => Some shp0
             end) with (Some [1%nat]) by (by destruct Hy as [[? ->] | [? ->]]).
    unfold Shape._get_shape.
    destruct Hop as [-> | ->]; cbn; unfold Shape.binary;
      rewrite decide_True by done; by apply broadcast_scalar. }
  replace (op_in ["mul"; "matmul"; "conv2d"] op_str) with false
    by (by destruct Hop as [-> | ->]).
  done.
Qed.

(** The loop squares the base once more than it needs to: for the
    exponent 1 the result is [base.mul(1)], and the private product
    [base * base] is still computed; when it raises, so does [pow], and when
    it returns, its world is the one [pow] leaves. *)
Theorem pow_one_squares_base self w w1 r :
  mul self (Public (PubInt 1)) w = (w1, OK r) →
  pow self 1 w
  = match mul self (Private self) w1 with
    | (w2, OK _) => (w2, OK (Private r))
    | (w2, Raise e) => (w2, Raise e)
    end.
Proof.
  intros Hone. unfold pow, pow_loop, result_times_base. run.
  rewrite Hone. by destruct (mul self (Private self) w1) as [w2 [sq|e]].
Qed.

End Parties.

Arguments share_ptrs {Handle} m.
Arguments session {Handle} m.
Arguments shape {Handle} m.
Arguments Build_MPCTensor {Handle} share_ptrs session shape.
Arguments Private {Handle} y.
Arguments Public {Handle} y.

(** *** Parties that compute in the clear *)

(** An instance to run the orchestrator on: a share handle is the share's
    value (one integer, every handle counts as a pointer), the world is the
    list of the collaborator calls made so far, multiplication and division
    act on the sum of the shares, and there is no convolution. *)
Inductive call_event :=
| CallShareOp (op_str : string) (rank_value : Z)
| CallShareOp2 (op_str : string)
| CallSend (party : nat)
| CallMulMaster (op_str : string)
| CallDivide (by_value : Z).

Definition public_value (y : public) : Z :=
  match y with
  | PubInt z => z
  | PubFloat q => Qfloor q
  | PubTensor _ data => Qfloor (hd 0%Q data)
  end.

Definition clear_binop (op_str : string) (a b : Z) : Z :=
  if String.eqb op_str "add" then a + b
  else if String.eqb op_str "sub" then a - b
  else a * b.

Definition clear_share_op (op_str : string) (h : Z) (y : public)
  : M (list call_event) Z :=
  λ w, (w ++ [CallShareOp op_str h], OK (clear_binop op_str h (public_value y))).

Definition clear_share_op2 (op_str : string) (a b : Z) : M (list call_event) Z :=
  λ w, (w ++ [CallShareOp2 op_str], OK (clear_binop op_str a b)).

Definition clear_send (h : Z) (party : nat) : M (list call_event) Z :=
  λ w, (w ++ [CallSend party], OK h).

Definition total (t : MPCTensor Z) : Z := foldr Z.add 0 (share_ptrs t).

(** Shares of [v]: rank 0 holds it, the others hold zero. *)
Definition reshare (like : MPCTensor Z) (v : Z) : MPCTensor Z :=
  {| share_ptrs := v :: ((λ _, 0) <$> tail (share_ptrs like));
     session := session like; shape := shape like |}.

Definition clear_mul_master (x y : MPCTensor Z) (op_str : string)
    (kwargs_ : gmap string Z) : M (list call_event) (MPCTensor Z) :=
  λ w, (w ++ [CallMulMaster op_str], OK (reshare x (total x * total y))).

Definition clear_public_divide (x : MPCTensor Z) (y : public)
  : M (list call_event) (MPCTensor Z) :=
  λ w, (w ++ [CallDivide (public_value y)],
        OK (reshare x (total x / public_value y))).

Definition no_conv2d (x y : list nat) (kwargs_ : gmap string Z)
  : result (list nat) := Raise (External 0).

Definition clear_apply_op :=
  __apply_op no_conv2d Z (λ _, true) (list call_event)
    clear_share_op clear_share_op2 clear_send clear_mul_master clear_public_divide.

Definition clear_apply_private_op :=
  __apply_private_op no_conv2d Z (λ _, true) (list call_event)
    clear_share_op2 clear_send clear_mul_master.

Definition clear_apply_public_op :=
  __apply_public_op Z (λ _, true) (list call_event) clear_share_op clear_send.

Definition clear_apply_and_shape :=
  apply_and_shape no_conv2d Z (λ _, true) (list call_event)
    clear_share_op clear_share_op2 clear_send clear_mul_master.

Definition clear_pow :=
  pow no_conv2d Z (λ _, true) (list call_event)
    clear_share_op clear_share_op2 clear_send clear_mul_master clear_public_divide.

(** Sessions of two and of three parties, with scale [2 ^ 0 = 1] so that
    the clear values are left unscaled. *)
Definition two_parties : Session :=
  {| uuid := 11; nr_parties := 2; encoder_base := 2; encoder_precision := 0;
     session_ptrs := [0; 1]%nat; parties := [0; 1]%nat |}.

Definition three_parties : Session :=
  {| uuid := 12; nr_parties := 3; encoder_base := 2; encoder_precision := 0;
     session_ptrs := [0; 1; 2]%nat; parties := [0; 1; 2]%nat |}.

Definition x2 : MPCTensor Z :=
  {| share_ptrs := [5; -3]; session := two_parties; shape := Some [1%nat] |}.

Definition x3 : MPCTensor Z :=
  {| share_ptrs := [5; -4; 1]; session := three_parties; shape := Some [1%nat] |}.

Lemma session_mismatch_raises_witness :
  clear_apply_private_op x2 x3 "mul" ∅ []
    = ([], Raise (ValueError (NeedSameSession 11 12))) ∧
  clear_apply_op x2 (Private x3) "mul" ∅ []
    = ([], Raise (ValueError (NeedSameSession 11 12))).
Proof.
  apply (session_mismatch_raises no_conv2d Z (λ _, true) (list call_event)
           clear_share_op clear_share_op2 clear_send clear_mul_master
           clear_public_divide x2 x3 "mul" ∅ []).
  cbn. lia.
Defined.

Lemma public_add_sub_rank0_witness :
  clear_apply_public_op x3 (PubInt 10) "sub" ∅ []
    = ([CallShareOp "sub" 5],
       OK {| share_ptrs := [-5; -4; 1]; session := three_parties; shape := None |}) ∧
  (∀ shp,
     Shape._get_shape no_conv2d "sub" (Some [1%nat]) (Some [1%nat]) ∅ = OK shp →
     clear_apply_op x3 (Public (PubInt 10)) "sub" ∅ []
       = ([CallShareOp "sub" 5],
          OK {| share_ptrs := [-5; -4; 1]; session := three_parties;
                shape := Some shp |})).
Proof.
  apply (public_add_sub_rank0 no_conv2d Z (λ _, true) (list call_event)
           clear_share_op clear_share_op2 clear_send clear_mul_master
           clear_public_divide x3 (PubInt 10) "sub" ∅ [] 5 [-4; 1]
           [CallShareOp "sub" 5] (-5)).
  - by right.
  - reflexivity.
  - discriminate.
  - reflexivity.
  - reflexivity.
Defined.

Lemma rescale_after_multiplication_witness :
  clear_apply_op x3 (Private x3) "mul" ∅ []
  = (result ← clear_apply_and_shape x3 (Private x3) "mul" ∅;
     clear_public_divide result (PubInt (2 ^ 0))) [].
Proof.
  apply (rescale_after_multiplication no_conv2d Z (λ _, true) (list call_event)
           clear_share_op clear_share_op2 clear_send clear_mul_master
           clear_public_divide x3 (Private x3) "mul" ∅ []).
  - reflexivity.
  - cbn. lia.
Defined.

(** The calls the orchestrator makes for a product: the division follows
    the protocol for three parties and for a public factor, not for a
    private factor between two parties. *)
Example calls_private_mul_three_parties :
  (clear_apply_op x3 (Private x3) "mul" ∅ []).1
  = [CallMulMaster "mul"; CallDivide 1].
Proof. reflexivity. Qed.

Example calls_private_mul_two_parties :
  (clear_apply_op x2 (Private x2) "mul" ∅ []).1 = [CallMulMaster "mul"].
Proof. reflexivity. Qed.

Example calls_public_mul_two_parties :
  (clear_apply_op x2 (Public (PubInt 7)) "mul" ∅ []).1
  = [CallShareOp "mul" 5; CallShareOp "mul" (-3); CallDivide 1].
Proof. reflexivity. Qed.

(** A public convolution kernel stops at [getattr(operator, "conv2d")]. *)
Example public_conv2d_raises :
  clear_apply_op x2 (Public (PubTensor [1; 1; 1; 1]%nat [1%Q])) "conv2d" ∅ []
  = ([], Raise (AttributeError "conv2d")).
Proof. reflexivity. Qed.

(** Shares held locally are sent to the parties by the constructor, all
    of them: the handles of the result are then new ones at every rank. *)
Example public_add_local_shares :
  (__apply_public_op Z (λ _, false) (list call_event) clear_share_op clear_send
     x3 (PubInt 10) "add" ∅ []).1
  = [CallShareOp "add" 5; CallSend 0; CallSend 1; CallSend 2].
Proof. reflexivity. Qed.

(** Powers of the value 2 shared between two parties. *)
Example pow_zero_clear :
  clear_pow x2 0 [] = ([], OK (Public (PubInt 1))).
Proof. reflexivity. Qed.

Example pow_five_clear :
  match clear_pow x2 5 [] with
  | (_, OK (Private r)) => total r
  | _ => 0
  end = 32.
Proof. reflexivity. Qed.

Example pow_five_calls :
  (clear_pow x2 5 []).1
  = [ CallShareOp "mul" 5; CallShareOp "mul" (-3); CallDivide 1;
      CallMulMaster "mul"; CallMulMaster "mul";
      CallMulMaster "mul"; CallMulMaster "mul" ].
Proof. reflexivity. Qed.

Example pow_negative_clear :
  clear_pow x2 (-1) []
  = ([], Raise (RuntimeError "Negative integer powers are not allowed.")).
Proof. reflexivity. Qed.

(** *** The further properties, on concrete parties *)

(** Handles that say whether they are pointers: [send] makes a pointer of
    a local share. *)
Definition marked_send (h : bool * Z) (party : nat)
  : M (list call_event) (bool * Z) :=
  λ w, (w ++ [CallSend party], OK (true, h.2)).

Lemma distribute_shares_pairs_witness :
  ∃ w' ptrs (ws : list (list call_event)),
    distribute_shares (bool * Z) (list call_event) marked_send
      [(false, 5); (false, -4); (false, 1)] [0; 1]%nat [] = (w', OK ptrs) ∧
    length ptrs = (3 `min` 2)%nat ∧
    ws !! 0%nat = Some [] ∧ ws !! length ptrs = Some w' ∧
    ∀ i ptr, ptrs !! i = Some ptr →
      ∃ share party wi wi',
        [(false, 5); (false, -4); (false, 1)] !! i = Some share ∧
        [0; 1]%nat !! i = Some party ∧
        ws !! i = Some wi ∧ ws !! S i = Some wi' ∧
        marked_send share party wi = (wi', OK ptr).
Proof.
  apply (distribute_shares_pairs (bool * Z) (list call_event) marked_send
           [(false, 5); (false, -4); (false, 1)] [0; 1]%nat []).
  intros h p w. by eexists _, _.
Defined.

(** The same run, spelled out: the third share has no party and is not
    sent. *)
Example distribute_shares_three_for_two :
  distribute_shares (bool * Z) (list call_event) marked_send
    [(false, 5); (false, -4); (false, 1)] [0; 1]%nat []
  = ([CallSend 0; CallSend 1], OK [(true, 5); (true, -4)]).
Proof. reflexivity. Qed.


Definition x2_unshaped : MPCTensor Z :=
  {| share_ptrs := [5; -3]; session := two_parties; shape := None |}.

Lemma private_mul_unset_shape_witness :
  clear_apply_private_op x2_unshaped x2 "mul" ∅ []
    = ([CallMulMaster "mul"], Raise (ValueError ShapesNone)) ∧
  clear_apply_op x2_unshaped (Private x2) "mul" ∅ []
    = ([CallMulMaster "mul"], Raise (ValueError ShapesNone)).
Proof.
  apply (private_mul_unset_shape no_conv2d Z (λ _, true) (list call_event)
           clear_share_op clear_share_op2 clear_send clear_mul_master
           clear_public_divide x2_unshaped x2 "mul" ∅ [] [CallMulMaster "mul"]
           (reshare x2_unshaped (total x2_unshaped * total x2))).
  - reflexivity.
  - reflexivity.
  - reflexivity.
  - by left.
Defined.

Lemma public_number_keeps_shape_witness :
  clear_apply_op x3 (Public (PubInt 10)) "add" ∅ []
  = ([CallShareOp "add" 5],
     OK {| share_ptrs := [15; -4; 1]; session := three_parties;
           shape := Some [1%nat] |}).
Proof.
  apply (public_number_keeps_shape no_conv2d Z (λ _, true) (list call_event)
           clear_share_op clear_share_op2 clear_send clear_mul_master
           clear_public_divide x3 (PubInt 10) "add" [] 5 [-4; 1]
           [CallShareOp "add" 5] 15 [1%nat]).
  - by left.
  - left. by exists 10.
  - reflexivity.
  - discriminate.
  - reflexivity.
  - reflexivity.
  - reflexivity.
  - discriminate.
Defined.

(** Tensors of the two-party session with one element and a share. *)
Definition two_party_scalar (t : MPCTensor Z) : Prop :=
  session t = two_parties ∧ shape t = Some [1%nat] ∧ share_ptrs t ≠ [].

Definition clear_mul :=
  mul no_conv2d Z (λ _, true) (list call_event)
    clear_share_op clear_share_op2 clear_send clear_mul_master clear_public_divide.

Lemma total_reshare like v : total (reshare like v) = v.
Proof.
  unfold total, reshare. cbn.
  assert (foldr Z.add 0 ((λ _ : Z, 0) <$> tail (share_ptrs like)) = 0) as ->; [|lia].
  induction (tail (share_ptrs like)) as [|h l IH]; [done|]. cbn. by rewrite IH.
Qed.

Lemma clear_mul_private a b w :
  two_party_scalar a → two_party_scalar b →
  ∃ w' r, clear_mul a (Private b) w = (w', OK r) ∧ two_party_scalar r ∧
          total r = total a * total b.
Proof.
  destruct a as [sa sessa shpa], b as [sb sessb shpb].
  intros (Hsa & Hshpa & Hnea) (Hsb & Hshpb & Hneb). cbn in *. subst.
  eexists _, _. split; [reflexivity|]. split.
  - repeat split; cbn; done.
  - unfold total. cbn [set_shape reshare share_ptrs foldr].
    assert (foldr Z.add 0 ((λ _ : Z, 0) <$> tail sa) = 0) as ->; [|lia].
    induction (tail sa) as [|h l IH]; [done|]. cbn. by rewrite IH.
Qed.

Lemma clear_public_mul_shares shares y w :
  for_eachM (list call_event) (λ share, clear_share_op "mul" share y) shares w
  = (w ++ (CallShareOp "mul" <$> shares), OK ((λ h, h * public_value y) <$> shares)).
Proof.
  revert w. induction shares as [|h shares IH]; intros w; cbn [for_eachM].
  - cbn. by rewrite app_nil_r.
  - unfold mbind, M_bind, mret, M_ret. cbn [clear_share_op].
    rewrite IH. cbn. by rewrite <- app_assoc.
Qed.

Lemma total_times_one shares :
  foldr Z.add 0 ((λ h, h * 1) <$> shares) = foldr Z.add 0 shares.
Proof. induction shares as [|h l IH]; [done|]. cbn. rewrite IH. lia. Qed.

Lemma clear_mul_one a w :
  two_party_scalar a →
  ∃ w' r, clear_mul a (Public (PubInt 1)) w = (w', OK r) ∧ two_party_scalar r ∧
          total r = total a.
Proof.
  destruct a as [sa sessa shpa].
  intros (Hsa & Hshpa & Hnea). cbn in *. subst.
  destruct sa as [|h sa]; [done|].
  unfold clear_mul, mul, __apply_op, apply_and_shape, __apply_public_op.
  unfold mbind, M_bind, mret, M_ret, lift. cbn [Shape.getattr_operator String.eqb
    Ascii.eqb Bool.eqb op_in existsb orb andb share_ptrs session shape].
  rewrite clear_public_mul_shares.
  eexists _, _. split; [reflexivity|]. split.
  - repeat split; cbn; done.
  - rewrite total_reshare. unfold total. cbn [share_ptrs public_value scale
      encoder_base encoder_precision two_parties].
    change (2 ^ 0) with 1. rewrite Z.div_1_r.
    change (foldr Z.add 0 ((λ h0, h0 * 1) <$> h :: sa) = foldr Z.add 0 (h :: sa)).
    apply total_times_one.
Qed.

Lemma pow_one_squares_base_witness :
  clear_pow x2 1 []
  = match clear_mul x2 (Private x2)
            [CallShareOp "mul" 5; CallShareOp "mul" (-3); CallDivide 1] with
    | (w2, OK _) => (w2, OK (Private (reshare x2 2)))
    | (w2, Raise e) => (w2, Raise e)
    end.
Proof.
  apply (pow_one_squares_base no_conv2d Z (λ _, true) (list call_event)
           clear_share_op clear_share_op2 clear_send clear_mul_master
           clear_public_divide x2 []
           [CallShareOp "mul" 5; CallShareOp "mul" (-3); CallDivide 1]
           (reshare x2 2)).
  reflexivity.
Defined.

Lemma pow_positive_value_witness :
  ∃ w' r, clear_pow x2 5 [] = (w', OK (Private r)) ∧ total r = total x2 ^ 5.
Proof.
  apply (pow_positive_value no_conv2d Z (λ _, true) (list call_event)
           clear_share_op clear_share_op2 clear_send clear_mul_master
           clear_public_divide total two_party_scalar x2 5 []).
  - intros a b w. apply clear_mul_private.
  - intros a w. apply clear_mul_one.
  - repeat split. discriminate.
  - lia.
Defined.

End Orchestrator.

(** ** From a secret to shares at the parties and back: [MPCTensor.__init__],
    [sanity_checks], [generate_przs], [reconstruct] *)

Module Lifecycle.

Import Orchestrator.

Section Transport.

(** The ring, the encoder and the random generator of [Sharing]. *)
Variable ring_size : Z.
Variable encode : Sharing.ShareKwargs → Q → Z.
Variable Gen : Type.
Variable draw : Gen → Z * Gen.

(** A pointer to an object that a party holds. *)
Variable Pointer : Type.

(** What the list of an [MPCTensor] may hold: a share of the
    orchestrator's own, or a pointer.  [ispointer] of [sympc.utils] tells
    them apart. *)
Inductive share_ref :=
| Held (s : Sharing.ShareTensor)
| Remote (p : Pointer).

Definition ispointer (r : share_ref) : bool :=
  match r with
  | Held _ => false
  | Remote _ => true
  end.

Variable World : Type.

(** The transport, none of it in these sources: [send] of a share or a
    pointer to a party, [islocal] of [sympc.utils], and [request] and
    [get_copy] of a share pointer. *)
Variable send : share_ref → nat → M World Pointer.
Variable islocal : share_ref → bool.
Variable request : share_ref → M World unit.
Variable get_copy : share_ref → M World Sharing.ShareTensor.

(** PRZS, at the parties: the generators of a session, the remote call
    that draws one zero share, the party a pointer lives at, and the sum of
    two pointers at one party. *)
Variable Generators : Type.
Variable przs_generators : Session → list Generators.
Variable przs_generate_random_share : nat → list nat → Generators → M World Pointer.
Variable client : Pointer → nat.
Variable pointer_add : Pointer → Pointer → M World Pointer.

(** [FixedPointEncoder(base, precision).decode] of [sympc.encoder]. *)
Variable Decoded : Type.
Variable fp_decode : Z → Z → Sharing.py_sum_value → Decoded.

(** The identity of a session, as a [ShareTensor] refers to it. *)
Variable session_ref : Session → nat.

Local Abbreviation ShareTensor := Sharing.ShareTensor.
Local Abbreviation Tensor := (Orchestrator.MPCTensor share_ref).

(** The keyword arguments of [ShareTensor(data=secret, session=session)]:
    the encoder is the session's. *)
Definition session_kwargs (sess : Session) : Sharing.ShareKwargs :=
  {| Sharing.encoder_base := encoder_base sess;
     Sharing.encoder_precision := encoder_precision sess;
     Sharing.kw_session := Some (session_ref sess) |}.

(** Lines 189-196 of [sanity_checks], for a secret the orchestrator holds:
    numbers and tensors become a [ShareTensor] of the session; the shape is
    read off the secret, which fails on any other object. *)
Definition sanity_checks_local (sec : Sharing.secret) (sess : Session)
  : result ShareTensor :=
  match sec with
  | Sharing.SOther => Raise (AttributeError "shape")
  | _ => Sharing.as_share ring_size encode sec (session_kwargs sess)
  end.

(** Lines 139-153 on shares of either kind. *)
Definition distribute (shares : list share_ref) (parties : list nat)
  : M World (list share_ref) :=
  for_eachM World (λ sp, p ← send sp.1 sp.2; mret (Remote p)) (zip shares parties).

(** Lines 216-227. *)
Definition generate_przs (shape : list nat) (sess : Session) : M World (list Pointer) :=
  for_eachM World
    (λ sg, przs_generate_random_share sg.1 shape sg.2)
    (zip (session_ptrs sess) (przs_generators sess)).

(** Lines 118-121: the first share at the party of the secret takes the
    secret; [None] when no share lives there. *)
Fixpoint add_at_owner (secret : Pointer) (done_ptrs todo : list Pointer)
  : option (M World (list Pointer)) :=
  match todo with
  | [] => None
  | share :: todo' =>
      if (client share =? client secret)%nat then
        Some (sum ← pointer_add share secret;
              mret (done_ptrs ++ sum :: todo'))
      else add_at_owner secret (done_ptrs ++ [share]) todo'
  end.

(** What the constructor is given besides the session: a secret of the
    orchestrator's, a pointer to a secret at a party (with the shape, which
    [sanity_checks] demands then), a list of shares, or neither. *)
Inductive source :=
| FromSecret (sec : Sharing.secret)
| FromRemote (secret : Pointer) (shape : list nat)
| FromShares (shares : list share_ref)
| FromNothing.

(** Lines 102-136, after the session has been found and checked. *)
Definition finish (sess : Session) (self_shape shape_arg : option (list nat))
    (shares : list share_ref) : M World Tensor :=
  first ← lift World (index shares 0);
  shares' ← (if negb (ispointer first)
             then distribute shares (parties sess)
             else mret shares);
  mret {| share_ptrs := shares'; session := sess;
          shape := match shape_arg with Some _ => shape_arg | None => self_shape end |}.

(** [MPCTensor(session=sess, ...)], lines 90-136.  A local secret is flat
    here, so its shape is its number of elements. *)
Definition MPCTensor_new (sess : Session) (src : source)
    (shape_arg : option (list nat)) (g : Gen) : M World Tensor :=
  if (length (session_ptrs sess) =? 0)%nat then raise World (ValueError SetupNotCalled)
  else
    match src with
    | FromSecret sec =>
        secret ← lift World (sanity_checks_local sec sess);
        shares ← lift World
          (Sharing.generate_shares ring_size encode Gen draw
             (Sharing.SShare secret) (nr_parties sess) (session_kwargs sess) g);
        finish sess (Some [length (Sharing.tensor secret)]) shape_arg (Held <$> shares)
    | FromRemote secret shape =>
        przs ← generate_przs shape sess;
        match add_at_owner secret [] przs with
        | Some update =>
            ptrs ← update;
            mret {| share_ptrs := Remote <$> ptrs; session := sess;
                    shape := Some shape |}
        | None => raise World TypeError
        end
    | FromShares shares => finish sess None shape_arg shares
    | FromNothing => raise World TypeError
    end.

(** Lines 322-335. *)
Definition _request_and_get (share_ptr : share_ref) : M World ShareTensor :=
  _ ← (if negb (islocal share_ptr) then request share_ptr else mret ());
  get_copy share_ptr.

(** What [reconstruct] returns: the shares, their sum, or the sum decoded. *)
Inductive reconstructed :=
| TheShares (tensors : list (list Z))
| ThePlaintext (sum : Sharing.py_sum_value)
| TheDecoded (value : Decoded).

(** Lines 305-358.  Modelled from the spec: [parallel_execution] of
    [sympc.utils], absent from these sources, hands back the results in
    party-rank order; the calls run one after the other here. *)
Definition reconstruct (self : Tensor) (decode get_shares : bool)
  : M World reconstructed :=
  local_shares ← for_eachM World _request_and_get (share_ptrs self);
  let shares := Sharing.tensor <$> local_shares in
  if get_shares then mret (TheShares shares)
  else
    let plaintext := Sharing.py_sum ring_size shares in
    if decode
    then mret (TheDecoded (fp_decode (encoder_base (session self))
                             (encoder_precision (session self)) plaintext))
    else mret (ThePlaintext plaintext).

(** Lines 362-369. *)
Definition get_shares (self : Tensor) : M World reconstructed :=
  reconstruct self true true.

Ltac run := unfold mbind, M_bind, mret, M_ret, lift, raise.

(** *** Sharing a local secret, then reading it back *)

(** What a transport has to do for the round trip: [holds w r s] says that
    in the world [w] the reference [r] stands for the share [s].  A share
    sent is held by the pointer returned, fetching a share that is held
    returns it, and neither disturbs what other references hold. *)
Definition transport_keeps
    (holds : World → share_ref → ShareTensor → Prop) : Prop :=
  (∀ s party w, ∃ w' ptr,
     send (Held s) party w = (w', OK ptr) ∧ holds w' (Remote ptr) s ∧
     ∀ r s0, holds w r s0 → holds w' r s0) ∧
  (∀ r s w, holds w r s →
     ∃ w', _request_and_get r w = (w', OK s) ∧
           ∀ r0 s0, holds w r0 s0 → holds w' r0 s0).

Lemma distribute_holds holds shares parties w :
  transport_keeps holds →
  (length shares ≤ length parties)%nat →
  ∃ w' refs,
    distribute (Held <$> shares) parties w = (w', OK refs) ∧
    Forall2 (holds w') refs shares ∧
    ∀ r s0, holds w r s0 → holds w' r s0.
Proof.
  intros [Hsend _]. unfold distribute.
  revert parties w. induction shares as [|s shares IH]; intros parties w Hlen.
  { exists w, []. by destruct parties. }
  destruct parties as [|party parties]; [cbn in Hlen; lia|].
  change (zip (Held <$> s :: shares) (party :: parties))
    with ((Held s, party) :: zip (Held <$> shares) parties).
  cbn [for_eachM]. run. cbn [fst snd].
  destruct (Hsend s party w) as (w1 & ptr & -> & Hptr & Hkeep1).
  destruct (IH parties w1) as (w2 & refs & Hrun & Hrefs & Hkeep2);
    [cbn in Hlen; lia|].
  unfold mbind, M_bind, mret, M_ret, lift, raise in Hrun. rewrite Hrun.
  exists w2, (Remote ptr :: refs). split; [done|]. split.
  - constructor; [by apply Hkeep2|done].
  - intros r s0 Hr. by apply Hkeep2, Hkeep1.
Qed.

Lemma gather_holds holds refs shares w :
  transport_keeps holds →
  Forall2 (holds w) refs shares →
  ∃ w', for_eachM World _request_and_get refs w = (w', OK shares).
Proof.
  intros [_ Hget] Hrefs. revert shares w Hrefs.
  induction refs as [|r refs IH]; intros shares w Hrefs.
  { apply Forall2_nil_inv_l in Hrefs as ->. by exists w. }
  apply Forall2_cons_inv_l in Hrefs as (s & shares' & Hr & Hrefs & ->).
  cbn [for_eachM]. run.
  destruct (Hget r s w Hr) as (w1 & -> & Hkeep).
  destruct (IH shares' w1) as (w2 & Hrun).
  { eapply Forall2_impl; [intros r0 s0; apply Hkeep|exact Hrefs]. }
  unfold mbind, M_bind, mret, M_ret, lift, raise in Hrun. rewrite Hrun.
  by exists w2.
Qed.

(** The shares of a secret, as [generate_shares] returns them, sum to
    its payload. *)
Lemma shares_of_secret s nr_parties kwargs g :
  2 ≤ nr_parties →
  ∃ shares,
    Sharing.generate_shares ring_size encode Gen draw
      (Sharing.SShare s) nr_parties kwargs g = OK shares ∧
    length shares = Z.to_nat nr_parties ∧
    Sharing.py_sum ring_size (Sharing.tensor <$> shares)
    = Sharing.SumTensor (Sharing.wrap ring_size <$> Sharing.tensor s).
Proof.
  intros Hn.
  destruct (Sharing.generate_shares_chain ring_size encode Gen draw
              (Sharing.SShare s) nr_parties kwargs g s Hn eq_refl)
    as (r1 & rs & Hrs & Hgen).
  pose proof (Sharing.random_shares_length ring_size Gen draw
                (Z.to_nat (nr_parties - 1))
                (length (Sharing.tensor s)) (Sharing.session s) g) as Hlen.
  pose proof (Sharing.random_shares_numel ring_size Gen draw
                (Z.to_nat (nr_parties - 1))
                (length (Sharing.tensor s)) (Sharing.session s) g) as Hnumel.
  rewrite Hrs in Hlen, Hnumel. cbn in Hlen.
  inversion Hnumel as [|? ? Hr1 Hrest]; subst.
  exists (r1 :: Sharing.chain ring_size r1 rs s). split; [done|]. split.
  - cbn. rewrite Sharing.chain_length. lia.
  - cbn [fmap list_fmap Sharing.py_sum]. f_equal.
    change (λ x : Z, Sharing.wrap ring_size (0 + x)) with (Sharing.wrap ring_size).
    by apply Sharing.sum_chain.
Qed.

Lemma construct_from_secret holds sess sec g w s :
  transport_keeps holds →
  session_ptrs sess ≠ [] →
  2 ≤ nr_parties sess →
  nr_parties sess ≤ Z.of_nat (length (parties sess)) →
  sanity_checks_local sec sess = OK s →
  ∃ w1 refs shares,
    MPCTensor_new sess (FromSecret sec) None g w
      = (w1, OK {| share_ptrs := refs; session := sess;
                   shape := Some [length (Sharing.tensor s)] |}) ∧
    Sharing.generate_shares ring_size encode Gen draw
      (Sharing.SShare s) (nr_parties sess) (session_kwargs sess) g = OK shares ∧
    length shares = Z.to_nat (nr_parties sess) ∧
    Forall2 (holds w1) refs shares.
Proof.
  intros Hkeeps Hptrs Hn Hparties Hs. unfold MPCTensor_new.
  destruct (session_ptrs sess); [done|]. cbn [length Nat.eqb]. run. rewrite Hs.
  destruct (shares_of_secret s (nr_parties sess) (session_kwargs sess) g Hn)
    as (shares & Hgen & Hlen & _).
  rewrite Hgen. unfold finish. run.
  destruct shares as [|share shares]; [cbn in Hlen; lia|].
  unfold index. cbn [fmap list_fmap]. change ((Held share :: _) !! 0%nat)
    with (Some (Held share)). cbn [ispointer negb].
  destruct (distribute_holds holds (share :: shares) (parties sess) w Hkeeps)
    as (w1 & refs & Hrun & Hrefs & _); [lia|].
  cbn [fmap list_fmap] in Hrun. rewrite Hrun.
  by exists w1, refs, (share :: shares).
Qed.

(** Sharing then reconstructing returns the secret.  On a session that is
    set up, with at least two parties and a party for every rank, the
    constructor places one share per party, and [reconstruct] on the result
    returns the sum of the shares, which is the payload of the secret in the
    ring, undecoded or passed to the decoder of the session. *)
Theorem share_then_reconstruct holds sess sec g w s :
  transport_keeps holds →
  session_ptrs sess ≠ [] →
  2 ≤ nr_parties sess →
  nr_parties sess ≤ Z.of_nat (length (parties sess)) →
  sanity_checks_local sec sess = OK s →
  ∃ w1 t,
    MPCTensor_new sess (FromSecret sec) None g w = (w1, OK t) ∧
    length (share_ptrs t) = Z.to_nat (nr_parties sess) ∧
    (∃ w2, reconstruct t false false w1
           = (w2, OK (ThePlaintext
                        (Sharing.SumTensor
                           (Sharing.wrap ring_size <$> Sharing.tensor s))))) ∧
    (∃ w2, reconstruct t true false w1
           = (w2, OK (TheDecoded
                        (fp_decode (encoder_base sess) (encoder_precision sess)
                           (Sharing.SumTensor
                              (Sharing.wrap ring_size <$> Sharing.tensor s)))))).
Proof.
  intros Hkeeps Hptrs Hn Hparties Hs.
  destruct (construct_from_secret holds sess sec g w s Hkeeps Hptrs Hn Hparties Hs)
    as (w1 & refs & shares & Hnew & Hgen & Hlen & Hrefs).
  destruct (shares_of_secret s (nr_parties sess) (session_kwargs sess) g Hn)
    as (shares' & Hgen' & _ & Hsum).
  rewrite Hgen in Hgen'. injection Hgen' as <-.
  destruct (gather_holds holds refs shares w1 Hkeeps Hrefs) as (w2 & Hgather).
  eexists w1, _. split; [exact Hnew|]. cbn [share_ptrs].
  split; [apply Forall2_length in Hrefs; congruence|].
  unfold reconstruct. run. cbn [share_ptrs session].
  unfold mbind, M_bind, mret, M_ret, lift, raise in Hgather.
  rewrite Hgather, Hsum.
  split; by exists w2.
Qed.

(** [get_shares] on a freshly shared secret returns the payloads of the
    shares [generate_shares] made, rank by rank, not their sum. *)
Theorem share_then_get_shares holds sess sec g w s :
  transport_keeps holds →
  session_ptrs sess ≠ [] →
  2 ≤ nr_parties sess →
  nr_parties sess ≤ Z.of_nat (length (parties sess)) →
  sanity_checks_local sec sess = OK s →
  ∃ w1 t shares w2,
    MPCTensor_new sess (FromSecret sec) None g w = (w1, OK t) ∧
    Sharing.generate_shares ring_size encode Gen draw
      (Sharing.SShare s) (nr_parties sess) (session_kwargs sess) g = OK shares ∧
    get_shares t w1 = (w2, OK (TheShares (Sharing.tensor <$> shares))).
Proof.
  intros Hkeeps Hptrs Hn Hparties Hs.
  destruct (construct_from_secret holds sess sec g w s Hkeeps Hptrs Hn Hparties Hs)
    as (w1 & refs & shares & Hnew & Hgen & Hlen & Hrefs).
  destruct (gather_holds holds refs shares w1 Hkeeps Hrefs) as (w2 & Hgather).
  eexists w1, _, shares, w2. split; [exact Hnew|]. split; [done|].
  unfold get_shares, reconstruct. run. cbn [share_ptrs].
  unfold mbind, M_bind, mret, M_ret, lift, raise in Hgather. by rewrite Hgather.
Qed.

(** *** A secret that lives at a party *)

Lemma add_at_owner_found secret done_ptrs before owner after :
  Forall (λ p, client p ≠ client secret) before →
  client owner = client secret →
  ∃ update,
    add_at_owner secret done_ptrs (before ++ owner :: after) = Some update ∧
    ∀ w, update w
         = (sum ← pointer_add owner secret;
            mret (done_ptrs ++ before ++ sum :: after)) w.
Proof.
  intros Hbefore Howner. revert done_ptrs.
  induction Hbefore as [|p before Hp _ IH]; intros done_ptrs; cbn.
  - rewrite Howner, Nat.eqb_refl. by eexists.
  - apply Nat.eqb_neq in Hp. rewrite Hp.
    destruct (IH (done_ptrs ++ [p])) as (update & -> & Hupdate).
    exists update. split; [done|]. intros w. rewrite Hupdate. run.
    destruct (pointer_add owner secret w) as [w' [sum|e]]; [|done].
    by rewrite <- app_assoc.
Qed.

Lemma add_at_owner_missing secret done_ptrs todo :
  Forall (λ p, client p ≠ client secret) todo →
  add_at_owner secret done_ptrs todo = None.
Proof.
  intros Htodo. revert done_ptrs.
  induction Htodo as [|p todo Hp _ IH]; intros done_ptrs; cbn; [done|].
  apply Nat.eqb_neq in Hp. by rewrite Hp.
Qed.

(** Lines 112-121.  The secret of a party is added to one zero share
    only, the first that lives at that party; the zero shares of the other
    ranks are the handles of the result as they came. *)
Theorem remote_secret_owner_only
    sess secret shape shape_arg g w w1 before owner after w2 sum :
  session_ptrs sess ≠ [] →
  generate_przs shape sess w = (w1, OK (before ++ owner :: after)) →
  Forall (λ p, client p ≠ client secret) before →
  client owner = client secret →
  pointer_add owner secret w1 = (w2, OK sum) →
  MPCTensor_new sess (FromRemote secret shape) shape_arg g w
  = (w2, OK {| share_ptrs := Remote <$> (before ++ sum :: after);
               session := sess; shape := Some shape |}).
Proof.
  intros Hptrs Hprzs Hbefore Howner Hadd. unfold MPCTensor_new.
  destruct (session_ptrs sess) eqn:Hsp; [done|]. cbn [length Nat.eqb]. run.
  rewrite Hprzs.
  destruct (add_at_owner_found secret [] before owner after Hbefore Howner)
    as (update & -> & Hupdate).
  rewrite Hupdate. run. by rewrite Hadd.
Qed.

(** When no zero share lives at the party of the secret, the loop ends
    without a match and the constructor runs into [shares[0]] with
    [shares = None]: a [TypeError], after the zero shares were drawn. *)
Theorem remote_secret_without_owner sess secret shape shape_arg g w w1 przs :
  session_ptrs sess ≠ [] →
  generate_przs shape sess w = (w1, OK przs) →
  Forall (λ p, client p ≠ client secret) przs →
  MPCTensor_new sess (FromRemote secret shape) shape_arg g w = (w1, Raise TypeError).
Proof.
  intros Hptrs Hprzs Hnone. unfold MPCTensor_new.
  destruct (session_ptrs sess) eqn:Hsp; [done|]. cbn [length Nat.eqb]. run.
  rewrite Hprzs.
  by rewrite (add_at_owner_missing secret [] przs Hnone).
Qed.

(** *** [share]: the session of a set of parties *)

(** [Session(parties)] of [sympc.session] and [SessionManager.setup_mpc],
    neither in these sources: the set-up works on the session object and on
    the parties, and may raise. *)
Variable Session_new : list nat → Session.
Variable setup_mpc : Session → World → (World * Session) * result unit.

(** The keyword arguments of [share] name a session or the parties (with
    neither, line 937 raises a [ValueError]). *)
Inductive share_kwargs :=
| WithSession (sess : Session)
| WithParties (parties : list nat).

(** [setattr(session, "parties", parties)], line 950. *)
Definition set_parties (ps : list nat) (sess : Session) : Session :=
  {| uuid := uuid sess; nr_parties := nr_parties sess;
     encoder_base := encoder_base sess; encoder_precision := encoder_precision sess;
     session_ptrs := session_ptrs sess; parties := ps |}.

(** Lines 934-955.  [PARTIES_TO_SESSION] is keyed by the set of the party
    ids; the session is registered before it is set up, so the registry
    holds the object in the state the set-up left it in. *)
Definition share_session (kwargs : share_kwargs)
    (registry : gmap (gset nat) Session) (w : World)
  : (gmap (gset nat) Session * World) * result Session :=
  match kwargs with
  | WithSession sess => ((registry, w), OK sess)
  | WithParties ps =>
      let key : gset nat := list_to_set ps in
      match registry !! key with
      | Some sess => ((registry, w), OK sess)
      | None =>
          let '((w', sess), r) := setup_mpc (Session_new ps) w in
          match r with
          | OK _ =>
              let sess' := set_parties ps sess in
              ((<[key := sess']> registry, w'), OK sess')
          | Raise e => ((<[key := sess]> registry, w'), Raise e)
          end
      end
  end.

(** Line 957: [MPCTensor(secret=_self, **kwargs)] with the session found. *)
Definition share (_self : source) (kwargs : share_kwargs)
    (shape_arg : option (list nat)) (registry : gmap (gset nat) Session)
    (g : Gen) (w : World)
  : (gmap (gset nat) Session * World) * result Tensor :=
  let '((registry', w'), r) := share_session kwargs registry w in
  match r with
  | OK sess =>
      let '(w'', t) := MPCTensor_new sess _self shape_arg g w' in
      ((registry', w''), t)
  | Raise e => ((registry', w'), Raise e)
  end.

(** Sharing with parties the registry does not know sets a session up and
    registers it under the set of their ids; sharing again with the same
    parties, in whatever order, finds that session: no second set-up runs and
    the tensor is built on the session of the first call. *)
Theorem share_reuses_session
    ps ps' registry w w1 sess src shape_arg g :
  registry !! (list_to_set ps : gset nat) = None →
  setup_mpc (Session_new ps) w = ((w1, sess), OK ()) →
  (list_to_set ps' : gset nat) = list_to_set ps →
  let sess' := set_parties ps sess in
  let registry' := <[list_to_set ps := sess']> registry in
  share_session (WithParties ps) registry w = ((registry', w1), OK sess') ∧
  share_session (WithParties ps') registry' w1 = ((registry', w1), OK sess') ∧
  share src (WithParties ps') shape_arg registry' g w1
  = let '(w2, t) := MPCTensor_new sess' src shape_arg g w1 in ((registry', w2), t).
Proof.
  intros Hfresh Hsetup Hsame sess' registry'.
  assert (share_session (WithParties ps') registry' w1
          = ((registry', w1), OK sess')) as Hagain.
  { unfold share_session. rewrite Hsame. subst registry'.
    by rewrite lookup_insert_eq. }
  split; [|split; [done|]].
  - unfold share_session. by rewrite Hfresh, Hsetup.
  - unfold share. by rewrite Hagain.
Qed.

(** A set-up that raises leaves its session in the registry: the next
    [share] with these parties gets that session as the failed set-up left
    it, and sets nothing up. *)
Theorem share_after_failed_setup ps ps' registry w w1 sess e :
  registry !! (list_to_set ps : gset nat) = None →
  setup_mpc (Session_new ps) w = ((w1, sess), Raise e) →
  (list_to_set ps' : gset nat) = list_to_set ps →
  let registry' := <[list_to_set ps := sess]> registry in
  share_session (WithParties ps) registry w = ((registry', w1), Raise e) ∧
  ∀ w2, share_session (WithParties ps') registry' w2 = ((registry', w2), OK sess).
Proof.
  intros Hfresh Hsetup Hsame registry'. split.
  - unfold share_session. by rewrite Hfresh, Hsetup.
  - intros w2. unfold share_session. rewrite Hsame. subst registry'.
    by rewrite lookup_insert_eq.
Qed.

End Transport.

Arguments Held {Pointer} s.
Arguments Remote {Pointer} p.
Arguments FromSecret {Pointer} sec.
Arguments FromRemote {Pointer} secret shape.
Arguments FromShares {Pointer} shares.
Arguments FromNothing {Pointer}.
Arguments TheShares {Decoded} tensors.
Arguments ThePlaintext {Decoded} sum.
Arguments TheDecoded {Decoded} value.

(** *** Parties with a shelf *)

(** An instance: the world is the list of the shares the parties hold, a
    pointer names a party and a place in that list; sending a share puts it
    at the end, fetching reads it, a zero share is the tensor of its
    generator, and nothing is decoded. *)
Definition shelf_send (r : share_ref (nat * nat)) (party : nat)
  : M (list Sharing.ShareTensor) (nat * nat) :=
  λ w, match r with
       | Held s => (w ++ [s], OK (party, length w))
       | Remote p => (w, OK p)
       end.

Definition shelf_get_copy (r : share_ref (nat * nat))
  : M (list Sharing.ShareTensor) Sharing.ShareTensor :=
  λ w, match r with
       | Held s => (w, OK s)
       | Remote p => match w !! p.2 with
                     | Some s => (w, OK s)
                     | None => (w, Raise (External 2))
                     end
       end.

Definition shelf_request (r : share_ref (nat * nat))
  : M (list Sharing.ShareTensor) unit := λ w, (w, OK ()).

Definition shelf_holds (w : list Sharing.ShareTensor) (r : share_ref (nat * nat))
    (s : Sharing.ShareTensor) : Prop :=
  match r with
  | Held s' => s' = s
  | Remote p => w !! p.2 = Some s
  end.

Definition shelf_przs (session_ptr : nat) (shape : list nat) (seed : Z)
  : M (list Sharing.ShareTensor) (nat * nat) :=
  λ w, (w ++ [ {| Sharing.tensor := [seed]; Sharing.session := None |} ],
        OK (session_ptr, length w)).

Definition shelf_add (a b : nat * nat) : M (list Sharing.ShareTensor) (nat * nat) :=
  λ w, match w !! a.2, w !! b.2 with
       | Some x, Some y =>
           (w ++ [ {| Sharing.tensor := Sharing.tadd 64 (Sharing.tensor x) (Sharing.tensor y);
                      Sharing.session := Sharing.session x |} ],
            OK (a.1, length w))
       | _, _ => (w, Raise (External 3))
       end.

Definition shelf_generators (sess : Session) : list Z := [4; -9; 5].

Definition shelf_session_ref (sess : Session) : nat := Z.to_nat (uuid sess).

Definition shelf_new :=
  MPCTensor_new 64 Sharing.scale_encode Z Sharing.counter_draw
    (nat * nat) (list Sharing.ShareTensor) shelf_send
    Z shelf_generators shelf_przs fst shelf_add shelf_session_ref.

Definition shelf_reconstruct :=
  reconstruct 64 (nat * nat) (list Sharing.ShareTensor)
    (λ _, false) shelf_request shelf_get_copy
    Sharing.py_sum_value (λ _ _ plaintext, plaintext).

Definition shelf_get_shares :=
  get_shares 64 (nat * nat) (list Sharing.ShareTensor)
    (λ _, false) shelf_request shelf_get_copy
    Sharing.py_sum_value (λ _ _ plaintext, plaintext).

Lemma shelf_transport_keeps :
  transport_keeps (nat * nat) (list Sharing.ShareTensor)
    shelf_send (λ _, false) shelf_request shelf_get_copy shelf_holds.
Proof.
  split.
  - intros s party w. exists (w ++ [s]), (party, length w).
    split; [done|]. split.
    + cbn. by rewrite list_lookup_middle.
    + intros [s'|p] s0; cbn; [done|]. apply lookup_app_l_Some.
  - intros [s'|p] s w; cbn.
    + intros ->. by exists w.
    + intros Hp. exists w. unfold _request_and_get, shelf_get_copy. cbn.
      unfold mbind, M_bind, shelf_request. by rewrite Hp.
Qed.

Lemma share_then_reconstruct_witness :
  ∃ w1 t,
    shelf_new three_parties (FromSecret (Sharing.SInt 2)) None 10 [] = (w1, OK t) ∧
    length (share_ptrs t) = Z.to_nat 3 ∧
    (∃ w2, shelf_reconstruct t false false w1
           = (w2, OK (ThePlaintext (Sharing.SumTensor (Sharing.wrap 64 <$> [2]))))) ∧
    (∃ w2, shelf_reconstruct t true false w1
           = (w2, OK (TheDecoded (Sharing.SumTensor (Sharing.wrap 64 <$> [2]))))).
Proof.
  apply (share_then_reconstruct 64 Sharing.scale_encode Z Sharing.counter_draw
           (nat * nat) (list Sharing.ShareTensor) shelf_send (λ _, false)
           shelf_request shelf_get_copy Z shelf_generators shelf_przs fst shelf_add
           Sharing.py_sum_value (λ _ _ plaintext, plaintext) shelf_session_ref
           shelf_holds three_parties (Sharing.SInt 2) 10 []
           {| Sharing.tensor := [2]; Sharing.session := Some 12%nat |}).
  - apply shelf_transport_keeps.
  - discriminate.
  - cbn. lia.
  - cbn. lia.
  - reflexivity.
Defined.

Lemma share_then_get_shares_witness :
  ∃ w1 t shares w2,
    shelf_new three_parties (FromSecret (Sharing.SInt 2)) None 10 [] = (w1, OK t) ∧
    Sharing.generate_shares 64 Sharing.scale_encode Z Sharing.counter_draw
      (Sharing.SShare {| Sharing.tensor := [2]; Sharing.session := Some 12%nat |})
      3 (session_kwargs shelf_session_ref three_parties) 10 = OK shares ∧
    shelf_get_shares t w1 = (w2, OK (TheShares (Sharing.tensor <$> shares))).
Proof.
  apply (share_then_get_shares 64 Sharing.scale_encode Z Sharing.counter_draw
           (nat * nat) (list Sharing.ShareTensor) shelf_send (λ _, false)
           shelf_request shelf_get_copy Z shelf_generators shelf_przs fst shelf_add
           Sharing.py_sum_value (λ _ _ plaintext, plaintext) shelf_session_ref
           shelf_holds three_parties (Sharing.SInt 2) 10 []
           {| Sharing.tensor := [2]; Sharing.session := Some 12%nat |}).
  - apply shelf_transport_keeps.
  - discriminate.
  - cbn. lia.
  - cbn. lia.
  - reflexivity.
Defined.

(** The round trip, evaluated. *)
Example shelf_round_trip :
  match shelf_new three_parties (FromSecret (Sharing.SInt 2)) None 10 [] with
  | (w1, OK t) => (shelf_reconstruct t false false w1).2
  | (_, Raise e) => Raise e
  end = OK (ThePlaintext (Sharing.SumTensor [2])).
Proof. reflexivity. Qed.

(** A party list shorter than [nr_parties] leaves shares unsent, and the
    sum is no longer the secret. *)
Example shelf_missing_party :
  let sess := {| uuid := 13; nr_parties := 3; encoder_base := 2;
                 encoder_precision := 0; session_ptrs := [0; 1]%nat;
                 parties := [0; 1]%nat |} in
  match shelf_new sess (FromSecret (Sharing.SInt 2)) None 10 [] with
  | (w1, OK t) => (shelf_reconstruct t false false w1).2
  | (_, Raise e) => Raise e
  end = OK (ThePlaintext (Sharing.SumTensor [11])).
Proof. reflexivity. Qed.

(** A secret at party 1: the shelf holds it at place 0. *)
Definition secret_at_party_1 : list Sharing.ShareTensor :=
  [ {| Sharing.tensor := [7]; Sharing.session := None |} ].

Lemma remote_secret_owner_only_witness :
  shelf_new three_parties (FromRemote (1%nat, 0%nat) [1%nat]) None 10 secret_at_party_1
  = (secret_at_party_1
       ++ [ {| Sharing.tensor := [4]; Sharing.session := None |};
            {| Sharing.tensor := [-9]; Sharing.session := None |};
            {| Sharing.tensor := [5]; Sharing.session := None |};
            {| Sharing.tensor := [-2]; Sharing.session := None |} ],
     OK {| share_ptrs := Remote <$> ([(0, 1)] ++ (1, 4) :: [(2, 3)])%nat;
           session := three_parties; shape := Some [1%nat] |}).
Proof.
  apply (remote_secret_owner_only 64 Sharing.scale_encode Z Sharing.counter_draw
           (nat * nat) (list Sharing.ShareTensor) shelf_send
           Z shelf_generators shelf_przs fst shelf_add shelf_session_ref
           three_parties (1%nat, 0%nat) [1%nat] None 10 secret_at_party_1
           (secret_at_party_1
              ++ [ {| Sharing.tensor := [4]; Sharing.session := None |};
                   {| Sharing.tensor := [-9]; Sharing.session := None |};
                   {| Sharing.tensor := [5]; Sharing.session := None |} ])
           [(0, 1)%nat] (1, 2)%nat [(2, 3)%nat]).
  - discriminate.
  - reflexivity.
  - repeat constructor. cbn. lia.
  - reflexivity.
  - reflexivity.
Defined.

Lemma remote_secret_without_owner_witness :
  shelf_new three_parties (FromRemote (8%nat, 0%nat) [1%nat]) None 10 secret_at_party_1
  = (secret_at_party_1
       ++ [ {| Sharing.tensor := [4]; Sharing.session := None |};
            {| Sharing.tensor := [-9]; Sharing.session := None |};
            {| Sharing.tensor := [5]; Sharing.session := None |} ],
     Raise TypeError).
Proof.
  apply (remote_secret_without_owner 64 Sharing.scale_encode Z Sharing.counter_draw
           (nat * nat) (list Sharing.ShareTensor) shelf_send
           Z shelf_generators shelf_przs fst shelf_add shelf_session_ref
           three_parties (8%nat, 0%nat) [1%nat] None 10 secret_at_party_1
           (secret_at_party_1
              ++ [ {| Sharing.tensor := [4]; Sharing.session := None |};
                   {| Sharing.tensor := [-9]; Sharing.session := None |};
                   {| Sharing.tensor := [5]; Sharing.session := None |} ])
           [(0, 1); (1, 2); (2, 3)]%nat).
  - discriminate.
  - reflexivity.
  - repeat constructor; cbn; lia.
Defined.

(** Sessions of the shelf parties: a new session is not set up; the
    set-up gives it one session pointer per party. *)
Definition shelf_session_new (ps : list nat) : Session :=
  {| uuid := 20; nr_parties := Z.of_nat (length ps); encoder_base := 2;
     encoder_precision := 0; session_ptrs := []; parties := ps |}.

Definition shelf_setup (sess : Session) (w : list Sharing.ShareTensor)
  : (list Sharing.ShareTensor * Session) * result unit :=
  ((w, {| uuid := uuid sess; nr_parties := nr_parties sess;
          encoder_base := encoder_base sess;
          encoder_precision := encoder_precision sess;
          session_ptrs := seq 0 (length (parties sess));
          parties := parties sess |}), OK ()).

Definition failing_setup (sess : Session) (w : list Sharing.ShareTensor)
  : (list Sharing.ShareTensor * Session) * result unit :=
  ((w, sess), Raise (External 4)).

Definition shelf_share :=
  share 64 Sharing.scale_encode Z Sharing.counter_draw
    (nat * nat) (list Sharing.ShareTensor) shelf_send
    Z shelf_generators shelf_przs fst shelf_add shelf_session_ref
    shelf_session_new shelf_setup.

Lemma share_reuses_session_witness :
  let sess' := set_parties [0; 1; 2]%nat (shelf_setup (shelf_session_new [0; 1; 2]%nat) []).1.2 in
  let registry' := <[list_to_set [0; 1; 2]%nat := sess']> (∅ : gmap (gset nat) Session) in
  share_session (list Sharing.ShareTensor) shelf_session_new shelf_setup
    (WithParties [0; 1; 2]%nat) ∅ [] = ((registry', []), OK sess') ∧
  share_session (list Sharing.ShareTensor) shelf_session_new shelf_setup
    (WithParties [2; 0; 1; 0]%nat) registry' [] = ((registry', []), OK sess') ∧
  shelf_share (FromSecret (Sharing.SInt 2)) (WithParties [2; 0; 1; 0]%nat) None
    registry' 10 []
  = let '(w2, t) := shelf_new sess' (FromSecret (Sharing.SInt 2)) None 10 [] in
    ((registry', w2), t).
Proof.
  apply (share_reuses_session 64 Sharing.scale_encode Z Sharing.counter_draw
           (nat * nat) (list Sharing.ShareTensor) shelf_send
           Z shelf_generators shelf_przs fst shelf_add shelf_session_ref
           shelf_session_new shelf_setup
           [0; 1; 2]%nat [2; 0; 1; 0]%nat ∅ [] []
           (shelf_setup (shelf_session_new [0; 1; 2]%nat) []).1.2
           (FromSecret (Sharing.SInt 2)) None 10).
  - reflexivity.
  - reflexivity.
  - reflexivity.
Defined.

Lemma share_after_failed_setup_witness :
  let registry' :=
    <[list_to_set [0; 1]%nat := shelf_session_new [0; 1]%nat]>
      (∅ : gmap (gset nat) Session) in
  share_session (list Sharing.ShareTensor) shelf_session_new failing_setup
    (WithParties [0; 1]%nat) ∅ [] = ((registry', []), Raise (External 4)) ∧
  ∀ w2, share_session (list Sharing.ShareTensor) shelf_session_new failing_setup
          (WithParties [1; 0]%nat) registry' w2
        = ((registry', w2), OK (shelf_session_new [0; 1]%nat)).
Proof.
  apply (share_after_failed_setup (list Sharing.ShareTensor)
           shelf_session_new failing_setup [0; 1]%nat [1; 0]%nat ∅ [] []
           (shelf_session_new [0; 1]%nat) (External 4)).
  - reflexivity.
  - reflexivity.
  - reflexivity.
Defined.

(** After the failed set-up the constructor refuses the session. *)
Example share_after_failed_setup_raises :
  let registry' :=
    <[list_to_set [0; 1]%nat := shelf_session_new [0; 1]%nat]>
      (∅ : gmap (gset nat) Session) in
  (share 64 Sharing.scale_encode Z Sharing.counter_draw
     (nat * nat) (list Sharing.ShareTensor) shelf_send
     Z shelf_generators shelf_przs fst shelf_add shelf_session_ref
     shelf_session_new failing_setup
     (FromSecret (Sharing.SInt 2)) (WithParties [1; 0]%nat) None registry' 10 []).2
  = Raise (ValueError SetupNotCalled).
Proof. reflexivity. Qed.

End Lifecycle.
